(** * The host database of Sia (package hostdb): container, reorg
      reconciler and sampler, over a weighted selection tree.

    The container [HostDB] (package hostdb, second part of
    siatest/testnode.go) owns the root of a pointer tree of [hostNode]s, an
    index from identifier to tree node, a second index of inactive entries,
    and one reader-writer lock.  Go pointers are addresses into an
    append-only arena ([heap]); [nil] is [None]. *)

From stdpp Require Import base option list gmap strings fin_maps.
From Stdlib Require Import ZArith Lia.

(** ** Data model *)

(** [components.HostEntry]: the source reads [entry.ID]; the sampling
    weight is the scalar the tree sums up. *)
Record HostEntry := mkEntry { ID : string; Weight : Z }.

#[global] Instance HostEntry_eq_dec : EqDecision HostEntry.
Proof. solve_decision. Defined.

(** Addresses of tree nodes: indices into the arena. *)
Abbreviation addr := nat.

(** [hostNode]: one entry, the cached weight of the subtree below it (the
    field read as [hdb.hostTree.weight]), two children and a back-reference
    to the parent (the first argument of [createNode]). *)
Record hostNode := mkNode {
  parent : option addr;
  weight : Z;
  lchild : option addr;
  rchild : option addr;
  hostEntry : HostEntry
}.

#[global] Instance hostNode_eq_dec : EqDecision hostNode.
Proof. solve_decision. Defined.

(** The errors the container hands out; [ErrOther] stands for errors that
    come from collaborators (block scanner, random source, tree lookup). *)
Inductive error :=
| ErrExists     (* "entry of given id already exists in host db" *)
| ErrNotFound   (* "id not found in host database" *)
| ErrNoHosts    (* "no hosts found" *)
| ErrOther (msg : string).

#[global] Instance error_eq_dec : EqDecision error.
Proof. solve_decision. Defined.

Inductive result (A : Type) :=
| Ok (a : A)
| Err (e : error).
Arguments Ok {A} a.
Arguments Err {A} e.

(** [sync.RWMutex] as one goroutine sees it: free, held by a writer, or held
    by [1 + extra] readers. *)
Inductive RWMutex :=
| Unlocked
| WLocked
| RLocked (extra : nat).

#[global] Instance RWMutex_eq_dec : EqDecision RWMutex.
Proof. solve_decision. Defined.

Inductive LockEvent := EvLock | EvUnlock | EvRLock | EvRUnlock.

#[global] Instance LockEvent_eq_dec : EqDecision LockEvent.
Proof. solve_decision. Defined.

(** [type HostDB struct]. *)
Record HostDB := mkHostDB {
  hostTree : option addr;
  activeHosts : gmap string addr;
  inactiveHosts : gmap string HostEntry;
  dbLock : RWMutex
}.

(** The container together with the nodes its pointers refer to, and the
    log of operations performed on [dbLock], most recent first. *)
Record State := mkState {
  heap : list hostNode;
  hdb : HostDB;
  trace : list LockEvent
}.

Definition set_heap (h : list hostNode) (s : State) : State :=
  mkState h (hdb s) (trace s).
Definition set_hostTree (r : option addr) (s : State) : State :=
  mkState (heap s)
    (mkHostDB r (activeHosts (hdb s)) (inactiveHosts (hdb s)) (dbLock (hdb s)))
    (trace s).
Definition set_activeHosts (m : gmap string addr) (s : State) : State :=
  mkState (heap s)
    (mkHostDB (hostTree (hdb s)) m (inactiveHosts (hdb s)) (dbLock (hdb s)))
    (trace s).
Definition set_inactiveHosts (m : gmap string HostEntry) (s : State) : State :=
  mkState (heap s)
    (mkHostDB (hostTree (hdb s)) (activeHosts (hdb s)) m (dbLock (hdb s)))
    (trace s).
Definition set_dbLock (l : RWMutex) (ev : LockEvent) (s : State) : State :=
  mkState (heap s)
    (mkHostDB (hostTree (hdb s)) (activeHosts (hdb s)) (inactiveHosts (hdb s)) l)
    (ev :: trace s).

(** The lock operations in the order they happened. *)
Definition history (s : State) : list LockEvent := rev (trace s).

(** ** Calls: state passing with three ways to end *)

Inductive outcome (A : Type) :=
| Ret (a : A) (s : State)   (* the call returns [a] *)
| Panic (s : State)         (* run-time panic, or a walk over links that no
                               well-formed heap has (dangling or cyclic) *)
| Blocked (s : State).      (* the goroutine waits on [dbLock], which nothing
                               in this run releases *)
Arguments Ret {A} a s.
Arguments Panic {A} s.
Arguments Blocked {A} s.

Definition state_of {A} (o : outcome A) : State :=
  match o with Ret _ s | Panic s | Blocked s => s end.

Definition M (A : Type) : Type := State → outcome A.

Definition ret {A} (a : A) : M A := λ s, Ret a s.

Definition bind {A B} (m : M A) (k : A → M B) : M B := λ s,
  match m s with
  | Ret a s' => k a s'
  | Panic s' => Panic s'
  | Blocked s' => Blocked s'
  end.

Notation "'call' x <- m ; k" := (bind m (λ x, k))
  (at level 10, x name, m at level 100, k at level 200,
   format "'[v' 'call'  x  <-  m ; '/' k ']'").
Notation "'perform' m ; k" := (bind m (λ _, k))
  (at level 10, m at level 100, k at level 200,
   format "'[v' 'perform'  m ; '/' k ']'").

(** [defer d] before a body: [d] runs when the body returns or panics, not
    when it never comes back. *)
Definition defer {A} (d : M unit) (body : M A) : M A := λ s,
  match body s with
  | Ret a s' =>
      match d s' with
      | Ret _ s'' => Ret a s''
      | Panic s'' => Panic s''
      | Blocked s'' => Blocked s''
      end
  | Panic s' =>
      match d s' with
      | Ret _ s'' | Panic s'' => Panic s''
      | Blocked s'' => Blocked s''
      end
  | Blocked s' => Blocked s'
  end.

(** ** The lock helpers *)

(** Modelled from the spec: the helpers [lock], [unlock], [rLock] and
    [rUnlock] of the container are not in the source file.  The spec gives
    the container a single reader-writer lock, taken in exclusive mode by
    [Insert], [Remove] and [Update] and in shared mode by [RandomHost]; the
    field is [dbLock sync.RWMutex], which is not reentrant: taking it while
    it is held waits until it is released. *)
Definition lock : M unit := λ s,
  match dbLock (hdb s) with
  | Unlocked => Ret () (set_dbLock WLocked EvLock s)
  | _ => Blocked s
  end.

Definition unlock : M unit := λ s,
  match dbLock (hdb s) with
  | WLocked => Ret () (set_dbLock Unlocked EvUnlock s)
  | _ => Panic s
  end.

Definition rLock : M unit := λ s,
  match dbLock (hdb s) with
  | Unlocked => Ret () (set_dbLock (RLocked 0) EvRLock s)
  | RLocked k => Ret () (set_dbLock (RLocked (S k)) EvRLock s)
  | WLocked => Blocked s
  end.

Definition rUnlock : M unit := λ s,
  match dbLock (hdb s) with
  | RLocked 0 => Ret () (set_dbLock Unlocked EvRUnlock s)
  | RLocked (S k) => Ret () (set_dbLock (RLocked k) EvRUnlock s)
  | _ => Panic s
  end.

(** ** The weighted selection tree *)

Definition ownWeight (n : hostNode) : Z := Weight (hostEntry n).

(** The cached weight behind a child link, 0 for an absent child. *)
Definition subtreeWeight (h : list hostNode) (o : option addr) : Z :=
  match o with
  | Some a => from_option weight 0%Z (h !! a)
  | None => 0%Z
  end.

Definition set_weight (w : Z) (n : hostNode) : hostNode :=
  mkNode (parent n) w (lchild n) (rchild n) (hostEntry n).
Definition set_lchild (c : option addr) (n : hostNode) : hostNode :=
  mkNode (parent n) (weight n) c (rchild n) (hostEntry n).
Definition set_rchild (c : option addr) (n : hostNode) : hostNode :=
  mkNode (parent n) (weight n) (lchild n) c (hostEntry n).
Definition set_hostEntry (e : HostEntry) (n : hostNode) : hostNode :=
  mkNode (parent n) (weight n) (lchild n) (rchild n) e.

(** Modelled from the spec: [createNode] is not in the source file; the
    source calls it with the parent and the entry.  A new leaf has
    [subtreeWeight = entry.weight]; it is allocated at the next address. *)
Definition createNode (p : option addr) (entry : HostEntry)
    (h : list hostNode) : list hostNode * addr :=
  (h ++ [mkNode p (Weight entry) None None entry], length h).

Inductive side := SLeft | SRight.

#[global] Instance side_eq_dec : EqDecision side.
Proof. solve_decision. Defined.

Definition child (sd : side) (n : hostNode) : option addr :=
  match sd with SLeft => lchild n | SRight => rchild n end.
Definition set_child (sd : side) (c : option addr) (n : hostNode) : hostNode :=
  match sd with SLeft => set_lchild c n | SRight => set_rchild c n end.

(** The lighter side of a node, ties to the left. *)
Definition lighter (h : list hostNode) (n : hostNode) : side :=
  if decide (subtreeWeight h (lchild n) ≤ subtreeWeight h (rchild n))%Z
  then SLeft else SRight.

(** Modelled from the spec: the placement walk of the tree's [insert],
    which is not in the source file: "starting at the root, at each visited
    node compare the subtreeWeight of its left and right children and
    descend into the lighter side (ties broken consistently, e.g., always
    left), until a missing child slot is found". *)
Fixpoint findSlot (fuel : nat) (h : list hostNode) (a : addr)
    : option (addr * side) :=
  match fuel with
  | O => None
  | S fuel' =>
      n ← h !! a;
      match child (lighter h n) n with
      | None => Some (a, lighter h n)
      | Some c => findSlot fuel' h c
      end
  end.

(** Modelled from the spec: adding [delta] to the [subtreeWeight] of a node
    and of every ancestor up to the root, along the parent references. *)
Fixpoint propagate (fuel : nat) (h : list hostNode) (o : option addr)
    (delta : Z) : option (list hostNode) :=
  match o with
  | None => Some h
  | Some a =>
      match fuel with
      | O => None
      | S fuel' =>
          n ← h !! a;
          propagate fuel' (<[a := set_weight (weight n + delta) n]> h)
            (parent n) delta
      end
  end.

(** Modelled from the spec: [hostNode.insert], not in the source file:
    "attach a new leaf there with subtreeWeight = entry.weight.  After
    attachment, propagate += entry.weight to subtreeWeight of every ancestor
    up to the root.  Returns the new node [...] and the weight delta
    applied."  The source takes the node as the second result. *)
Definition insert (root : addr) (entry : HostEntry) (h : list hostNode)
    : option (list hostNode * (Z * addr)) :=
  '(a, sd) ← findSlot (length h) h root;
  n ← h !! a;
  let '(h1, c) := createNode (Some a) entry h in
  let h2 := <[a := set_child sd (Some c) n]> h1 in
  h3 ← propagate (length h2) h2 (Some a) (Weight entry);
  Some (h3, (Weight entry, c)).

(** The last node reached by following one side. *)
Fixpoint outermost (sd : side) (fuel : nat) (h : list hostNode) (a : addr)
    : option addr :=
  match fuel with
  | O => None
  | S fuel' =>
      n ← h !! a;
      match child sd n with
      | None => Some a
      | Some c => outermost sd fuel' h c
      end
  end.

(** A parent lets go of the child [c]. *)
Definition detach (c : addr) (n : hostNode) : hostNode :=
  if decide (lchild n = Some c) then set_lchild None n
  else if decide (rchild n = Some c) then set_rchild None n
  else n.

(** Modelled from the spec: [hostNode.remove], not in the source file: "if
    the node has no children, detach it from its parent (or null the root)
    and propagate -= node.ownWeight up the ancestor chain.  If the node has
    one or two children, replace its entry with that of a leaf descendant
    (pick, e.g., the rightmost descendant of the right subtree if present,
    else the leftmost of the left subtree), then recursively remove that
    now-duplicated leaf using the no-children case".  The source calls it
    as [node.remove()], on the node alone and with no result: the root
    pointer [hdb.hostTree] is out of its reach, and [HostDB.Remove] does not
    assign it. *)
Fixpoint remove (fuel : nat) (a : addr) (h : list hostNode)
    : option (list hostNode) :=
  match fuel with
  | O => None
  | S fuel' =>
      n ← h !! a;
      match rchild n, lchild n with
      | None, None =>
          let h1 :=
            match parent n with
            | Some p => from_option (λ m, <[p := detach a m]> h) h (h !! p)
            | None => h
            end in
          propagate (length h1) h1 (parent n) (- ownWeight n)
      | Some r, _ =>
          d ← outermost SRight (length h) h r;
          m ← h !! d;
          remove fuel' d (<[a := set_hostEntry (hostEntry m) n]> h)
      | None, Some l =>
          d ← outermost SLeft (length h) h l;
          m ← h !! d;
          remove fuel' d (<[a := set_hostEntry (hostEntry m) n]> h)
      end
  end.

(** Modelled from the spec: [hostNode.entryAtWeight], not in the source
    file: "at the current node, let lw = subtreeWeight(left).  If w < lw,
    recurse left with w.  Else if w < lw + ownWeight, return this node's
    entry.  Else recurse right with w - lw - ownWeight.  Fails [...] if
    [...] no interval contains w."  The source takes an entry and an error
    from it. *)
Fixpoint entryAtWeight (fuel : nat) (h : list hostNode) (a : addr) (w : Z)
    : result HostEntry :=
  match fuel with
  | O => Err (ErrOther "no interval contains the weight")
  | S fuel' =>
      match h !! a with
      | None => Err (ErrOther "no interval contains the weight")
      | Some n =>
          let lw := subtreeWeight h (lchild n) in
          if decide (w < lw)%Z then
            match lchild n with
            | Some l => entryAtWeight fuel' h l w
            | None => Err (ErrOther "no interval contains the weight")
            end
          else if decide (w < lw + ownWeight n)%Z then Ok (hostEntry n)
          else
            match rchild n with
            | Some r => entryAtWeight fuel' h r (w - lw - ownWeight n)
            | None => Err (ErrOther "no interval contains the weight")
            end
      end
  end.

(** ** The container *)

(** [New]: both indices empty, no tree, the lock free. *)
Definition New : HostDB := mkHostDB None ∅ ∅ Unlocked.

(** A fresh container in an empty arena. *)
Definition init : State := mkState [] New [].

(** [HostDB.Insert]. *)
Definition Insert (entry : HostEntry) : M (option error) :=
  perform lock;
  defer unlock (λ s,
    match activeHosts (hdb s) !! ID entry with
    | Some _ => Ret (Some ErrExists) s
    | None =>
        match hostTree (hdb s) with
        | None =>
            let '(h, a) := createNode None entry (heap s) in
            Ret None
              (set_activeHosts (<[ID entry := a]> (activeHosts (hdb s)))
                 (set_hostTree (Some a) (set_heap h s)))
        | Some root =>
            match insert root entry (heap s) with
            | Some (h, (_, a)) =>
                Ret None
                  (set_activeHosts (<[ID entry := a]> (activeHosts (hdb s)))
                     (set_heap h s))
            | None => Panic s
            end
        end
    end).

(** [HostDB.Remove]. *)
Definition Remove (id : string) : M (option error) :=
  perform lock;
  defer unlock (λ s,
    match activeHosts (hdb s) !! id with
    | None =>
        match inactiveHosts (hdb s) !! id with
        | Some _ =>
            Ret None (set_inactiveHosts (delete id (inactiveHosts (hdb s))) s)
        | None => Ret (Some ErrNotFound) s
        end
    | Some node =>
        let s1 := set_activeHosts (delete id (activeHosts (hdb s))) s in
        match remove (length (heap s1)) node (heap s1) with
        | Some h => Ret None (set_heap h s1)
        | None => Panic s1
        end
    end).

(** The conversion [int64(x)] of Go, wrapping around. *)
Definition int64 (z : Z) : Z := ((z + 2 ^ 63) mod 2 ^ 64 - 2 ^ 63)%Z.

(** [HostDB.RandomHost].  [rand_Int max] is what [rand.Int(rand.Reader,
    max)] hands back for a positive [max]: a draw or an error; it panics
    when [max <= 0].  Weights ([consensus.Currency]) are integers. *)
Definition RandomHost (rand_Int : Z → result Z) : M (result HostEntry) :=
  perform rLock;
  defer rUnlock (λ s,
    if decide (size (activeHosts (hdb s)) = 0) then Ret (Err ErrNoHosts) s
    else
      match hostTree (hdb s) with
      | None => Panic s
      | Some root =>
          match heap s !! root with
          | None => Panic s
          | Some n =>
              if decide (int64 (weight n) ≤ 0)%Z then Panic s
              else
                match rand_Int (int64 (weight n)) with
                | Err e => Ret (Err e) s
                | Ok randInt =>
                    Ret (entryAtWeight (length (heap s)) (heap s) root
                           (int64 randInt)) s
                end
          end
      end).

(** [HostDB.Update], over the block type and the block scanner of the
    consensus package, which the host database takes as they are. *)
Section Update.
Context {Block : Type}.
Variable findHostAnnouncements : Z → Block → result (list HostEntry).

  (** The inner loop over the announcements of a rewound block. *)
Fixpoint removeEntries (entries : list HostEntry) : M (option error) :=
    match entries with
    | [] => ret None
    | entry :: rest =>
        call err <- Remove (ID entry);
        match err with
        | Some e => ret (Some e)
        | None => removeEntries rest
        end
    end.

  (** The inner loop over the announcements of an applied block. *)
Fixpoint insertEntries (entries : list HostEntry) : M (option error) :=
    match entries with
    | [] => ret None
    | entry :: rest =>
        perform unlock;
        call err <- Insert entry;
        perform lock;
        match err with
        | Some e => ret (Some e)
        | None => insertEntries rest
        end
    end.

Fixpoint rewindBlocks (height : Z) (blocks : list Block)
      : M (option error) :=
    match blocks with
    | [] => ret None
    | b :: rest =>
        match findHostAnnouncements height b with
        | Err e => ret (Some e)
        | Ok entries =>
            call err <- removeEntries entries;
            match err with
            | Some e => ret (Some e)
            | None => rewindBlocks height rest
            end
        end
    end.

Fixpoint applyBlocks (height : Z) (blocks : list Block)
      : M (option error) :=
    match blocks with
    | [] => ret None
    | b :: rest =>
        match findHostAnnouncements height b with
        | Err e => ret (Some e)
        | Ok entries =>
            call err <- insertEntries entries;
            match err with
            | Some e => ret (Some e)
            | None => applyBlocks height rest
            end
        end
    end.

Definition Update (initialStateHeight : Z)
      (rewoundBlocks appliedBlocks : list Block) : M (option error) :=
    perform lock;
    defer unlock (
      call err <- rewindBlocks initialStateHeight rewoundBlocks;
      match err with
      | Some e => ret (Some e)
      | None => applyBlocks initialStateHeight appliedBlocks
      end).
End Update.

(** ** Heaps whose links are in order

    Nodes are only ever allocated at the end of the arena and attached below
    an older node, so a parent has a smaller address than its children.
    Every walk of the tree therefore ends within [length h] steps. *)

(** A heap with the cached weights wiped: the links and the entries. *)
Definition erase (h : list hostNode) : list hostNode := set_weight 0 <$> h.

Definition links_ok (len : nat) (a : addr) (n : hostNode) : Prop :=
  (∀ p, parent n = Some p → p < a) ∧
  (∀ sd c, child sd n = Some c → a < c < len).

Definition ordered (h : list hostNode) : Prop :=
  ∀ a n, h !! a = Some n → links_ok (length h) a n.

(** The container's pointers refer to allocated nodes of an ordered heap. *)
Definition wf (s : State) : Prop :=
  ordered (heap s) ∧
  (∀ r, hostTree (hdb s) = Some r → r < length (heap s)) ∧
  (∀ id a, activeHosts (hdb s) !! id = Some a → a < length (heap s)).

(** Taking and releasing the lock once: the container is as before, the log
    has two more events. *)
Definition touch (s : State) : State :=
  set_dbLock Unlocked EvUnlock (set_dbLock WLocked EvLock s).


(** ** Sample hosts, blocks and states *)

Definition hostA : HostEntry := mkEntry "A" 10.
Definition hostB : HostEntry := mkEntry "B" 30.
Definition hostC : HostEntry := mkEntry "C" 60.

(** A block stands for what the scanner finds in it. *)
Definition scanned (_ : Z) (b : result (list HostEntry))
    : result (list HostEntry) := b.

(** The container after [Insert] of A, of A then B, and of A, B, then C. *)
Definition stateA : State := state_of (Insert hostA init).
Definition stateAB : State := state_of (Insert hostB stateA).
Definition stateABC : State := state_of (Insert hostC stateAB).

(** ** Notions used to describe [Update] *)

Section Reorg.
Context {Block : Type}.
Variable findHostAnnouncements : Z → Block → result (list HostEntry).

Definition scan_fails (height : Z) (b : Block) : Prop :=
    ∃ e, findHostAnnouncements height b = Err e.

  (** The announcements of the blocks the scanner accepts, in order. *)
Fixpoint announced (height : Z) (blocks : list Block) : list HostEntry :=
    match blocks with
    | [] => []
    | b :: rest =>
        match findHostAnnouncements height b with
        | Ok entries => entries ++ announced height rest
        | Err _ => announced height rest
        end
    end.

  (** What the loop over the rewound blocks comes to while [Update] holds
      the lock: [Some err] when it ends with [err] (a scanner error, or nil
      after blocks without announcements), [None] when it reaches an
      announcement and calls [Remove]. *)
Fixpoint rewind_plan (height : Z) (blocks : list Block)
      : option (option error) :=
    match blocks with
    | [] => Some None
    | b :: rest =>
        match findHostAnnouncements height b with
        | Err e => Some (Some e)
        | Ok [] => rewind_plan height rest
        | Ok (_ :: _) => None
        end
    end.

  (** The operations of the container. *)
Inductive Op :=
  | OpInsert (entry : HostEntry)
  | OpRemove (id : string)
  | OpUpdate (height : Z) (rewound applied : list Block).

Definition exec (o : Op) : M (option error) :=
    match o with
    | OpInsert entry => Insert entry
    | OpRemove id => Remove id
    | OpUpdate height rewound applied =>
        Update findHostAnnouncements height rewound applied
    end.

  (** The state after a sequence of operations, each started when the one
      before has ended. *)
Definition run (ops : list Op) (s : State) : State :=
    foldl (λ s o, state_of (exec o s)) s ops.
End Reorg.

(** Some id comes twice in the list, or is active already. *)
Definition conflict (s : State) (entries : list HostEntry) : Prop :=
  ¬ NoDup (ID <$> entries) ∨
  ∃ e, e ∈ entries ∧ is_Some (activeHosts (hdb s) !! ID e).

(** The same, going through the list with the set of ids taken so far. *)
Fixpoint clash (taken : gset string) (entries : list HostEntry) : Prop :=
  match entries with
  | [] => False
  | e :: rest => ID e ∈ taken ∨ clash ({[ID e]} ∪ taken) rest
  end.

(** The lock operations around one [Insert] inside [Update]: release,
    [Insert]'s own acquire and release, acquire again. *)
Definition cycle : list LockEvent := [EvUnlock; EvLock; EvUnlock; EvLock].

(** One uninterrupted critical section, appended to the log [before]. *)
Definition held_throughout (before after : list LockEvent) : Prop :=
  after = before ++ [EvLock; EvUnlock].

(** A call keeps a property of the state, however it ends. *)
Definition preserves {A} (P : State → Prop) (m : M A) : Prop :=
  ∀ s, P s → P (state_of (m s)).

Definition no_inactive (s : State) : Prop := inactiveHosts (hdb s) = ∅.

Definition hostX : HostEntry := mkEntry "X" 20.
Definition hostY : HostEntry := mkEntry "Y" 50.

(** Block P1 announcing X and block P2 announcing Y, applied in turn. *)
Definition blockP1 : result (list HostEntry) := Ok [hostX].
Definition blockP2 : result (list HostEntry) := Ok [hostY].
Definition stateP1 : State := state_of (Update scanned 0 [] [blockP1] init).
Definition stateP2 : State := state_of (Update scanned 0 [] [blockP2] stateP1).

(** ** Notions used to describe the tree *)

(** The weighted lookup from the root of the container's tree. *)
Definition rootEntryAtWeight (s : State) (w : Z) : result HostEntry :=
  match hostTree (hdb s) with
  | Some root => entryAtWeight (length (heap s)) (heap s) root w
  | None => Err ErrNoHosts
  end.

(** The container after [Insert] of B, then A, then C. *)
Definition stateBAC : State :=
  state_of (Insert hostC (state_of (Insert hostA (state_of (Insert hostB init))))).

(** Invariant I1 at one node. *)
Definition weight_ok (h : list hostNode) (n : hostNode) : Prop :=
  weight n =
    (ownWeight n + subtreeWeight h (lchild n) + subtreeWeight h (rchild n))%Z.

Definition weights_ok (h : list hostNode) : Prop :=
  ∀ a n, h !! a = Some n → weight_ok h n.

(** The nodes of the tree: those reached from the root by child links. *)
Inductive in_tree (h : list hostNode) (root : option addr) : addr → Prop :=
| in_tree_root r :
    root = Some r → is_Some (h !! r) → in_tree h root r
| in_tree_child p n sd c :
    in_tree h root p → h !! p = Some n → child sd n = Some c →
    in_tree h root c.

(** A child refers back to its parent. *)
Definition linked (h : list hostNode) : Prop :=
  ∀ p n sd c, h !! p = Some n → child sd n = Some c →
    ∃ m, h !! c = Some m ∧ parent m = Some p.

Definition distinct_children (h : list hostNode) : Prop :=
  ∀ a n c, h !! a = Some n → lchild n = Some c → rchild n ≠ Some c.

Definition root_ok (h : list hostNode) (root : option addr) : Prop :=
  ∀ r, root = Some r → ∃ n, h !! r = Some n ∧ parent n = None.

Definition heap_ok (h : list hostNode) (root : option addr) : Prop :=
  ordered h ∧ linked h ∧ distinct_children h ∧ root_ok h root ∧ weights_ok h.

(** The container's tree is consistent and every id of the active index
    locates a node of the tree that no other id locates. *)
Definition tree_ok (s : State) : Prop :=
  dbLock (hdb s) = Unlocked ∧
  heap_ok (heap s) (hostTree (hdb s)) ∧
  (∀ id a, activeHosts (hdb s) !! id = Some a →
     in_tree (heap s) (hostTree (hdb s)) a) ∧
  (∀ id id' a, activeHosts (hdb s) !! id = Some a →
     activeHosts (hdb s) !! id' = Some a → id = id').

(** The heap after hanging a new leaf with [entry] below node [a] (whose
    record is [n]) on side [sd], before the weights are propagated. *)
Definition newLeaf (a : addr) (entry : HostEntry) : hostNode :=
  mkNode (Some a) (Weight entry) None None entry.
Definition attachLeaf (h : list hostNode) (a : addr) (sd : side)
    (n : hostNode) (entry : HostEntry) : list hostNode :=
  <[a := set_child sd (Some (length h)) n]> (h ++ [newLeaf a entry]).

(** The heap after the parent [p] (whose record is [k]) has let go of its
    child [a], before the weights are propagated. *)
Definition detachLeaf (h : list hostNode) (p a : addr) (k : hostNode)
    : list hostNode :=
  <[p := detach a k]> h.

(** The weight of the entry stored at an address. *)
Definition entryWeightAt (h : list hostNode) (a : addr) : Z :=
  from_option ownWeight 0%Z (h !! a).

Definition Zsum (l : list Z) : Z := foldr Z.add 0%Z l.

(** The sum of the weights of the active entries. *)
Definition activeWeight (s : State) : Z :=
  Zsum ((λ ia, entryWeightAt (heap s) ia.2) <$>
          map_to_list (activeHosts (hdb s))).

(** The root of the tree is itself located by the active index. *)
Definition root_active (s : State) : Prop :=
  ∀ r, hostTree (hdb s) = Some r → ∃ id, activeHosts (hdb s) !! id = Some r.

Definition conserved (s : State) : Prop :=
  subtreeWeight (heap s) (hostTree (hdb s)) = activeWeight s.

(** The node an id locates, if any, has no children. *)
Definition childless (s : State) (id : string) : Prop :=
  ∀ a n, activeHosts (hdb s) !! id = Some a → heap s !! a = Some n →
    lchild n = None ∧ rchild n = None.

(** The node an id locates, if any, has no children and is not the root. *)
Definition leaf_below (s : State) (id : string) : Prop :=
  ∀ a n, activeHosts (hdb s) !! id = Some a → heap s !! a = Some n →
    lchild n = None ∧ rchild n = None ∧ is_Some (parent n).

(** The states reached from the fresh container by [Insert] and by the
    [Remove] calls that [allowed] lets through. *)
Inductive reach (allowed : State → string → Prop) : State → Prop :=
| reach_init : reach allowed init
| reach_Insert s entry :
    reach allowed s → reach allowed (state_of (Insert entry s))
| reach_Remove s id :
    reach allowed s → allowed s id → reach allowed (state_of (Remove id s)).

Definition any_id (s : State) (id : string) : Prop := True.

(** Removing A, the root with the one child B, after [Insert] of A and B;
    and removing A when it is the only host. *)
Definition stateAB_minus_A : State := state_of (Remove "A" stateAB).
Definition stateA_minus_A : State := state_of (Remove "A" stateA).
Definition stateAB_minus_B : State := state_of (Remove "B" stateAB).

(** A deeper tree: A at the root, L to its left, X to its right, and below
    X the hosts B (left) and Y (right); then A is removed. *)
Definition hostL : HostEntry := mkEntry "L" 100.
Definition stateDeep : State :=
  foldl (λ s entry, state_of (Insert entry s)) init
    [hostA; hostL; hostX; hostB; hostY].
Definition stateDeep_minus_A : State := state_of (Remove "A" stateDeep).


(** ** Further notions for the container *)

(** [Insert] on each entry in turn, until one fails. *)
Fixpoint insertEach (entries : list HostEntry) : M (option error) :=
  match entries with
  | [] => ret None
  | entry :: rest =>
      call err <- Insert entry;
      match err with
      | Some e => ret (Some e)
      | None => insertEach rest
      end
  end.

(** Two states hold the same container: heap, root and both indices; the
    lock and its log may differ. *)
Definition same_container (s s' : State) : Prop :=
  heap s = heap s' ∧
  hostTree (hdb s) = hostTree (hdb s') ∧
  activeHosts (hdb s) = activeHosts (hdb s') ∧
  inactiveHosts (hdb s) = inactiveHosts (hdb s').

(** The scanner finds no announcement in any of the blocks. *)
Definition quiet {Block : Type}
    (findHostAnnouncements : Z → Block → result (list HostEntry))
    (height : Z) (blocks : list Block) : Prop :=
  ∀ b, b ∈ blocks → findHostAnnouncements height b = Ok [].

(** The lock is free or held by a writer. *)
Definition lock_free_or_written (s : State) : Prop :=
  dbLock (hdb s) = Unlocked ∨ dbLock (hdb s) = WLocked.

(** A single host of weight 0, and a host whose weight is [2 ^ 63]. *)
Definition hostZ : HostEntry := mkEntry "Z" 0.
Definition stateZ : State := state_of (Insert hostZ init).
Definition hostHuge : HostEntry := mkEntry "H" (2 ^ 63).
Definition stateHuge : State := state_of (Insert hostHuge init).

(** A container that starts with B in the inactive index. *)
Definition stateInactiveB : State :=
  mkState [] (mkHostDB None ∅ {["B" := hostB]} Unlocked) [].

(** ** The test node (package siatest, first part of siatest/testnode.go)

    A test node drives a Sia node through its HTTP API.  The node, the
    disk and the random source are the world; a request may change the
    world and answers with Go's pair of a value and an error.  A run that
    the model does not follow further ends in [None]. *)

Definition Api (World A : Type) : Type := World → option (A * World).

Definition api_ret {World A} (a : A) : Api World A := λ w, Some (a, w).

Definition api_bind {World A B} (m : Api World A) (k : A → Api World B)
    : Api World B := λ w,
  match m w with
  | Some (a, w') => k a w'
  | None => None
  end.

(** A computation that does not touch the world. *)
Definition api_lift {World A} (o : option A) : Api World A := λ w,
  match o with
  | Some a => Some (a, w)
  | None => None
  end.

Notation "'req' x <- m ; k" := (api_bind m (λ x, k))
  (at level 10, x name, m at level 100, k at level 200,
   format "'[v' 'req'  x  <-  m ; '/' k ']'").

(** [TestFile], declared elsewhere in the package: the fields read here. *)
Record TestFile := mkTestFile {
  path : string;
  fileName : string;
  siaPath : string
}.

(** What the test node takes from other packages: the types of the API and
    of the chain as far as the code reads them, the requests of the client,
    the server, the wallet, and the helpers for errors, encoding and
    hashing.  Bytes are integers from 0 to 255. *)
Class Collaborators := {
  World : Type;
  Server : Type;
  Client : Type;
  NodeParams : Type;
  FileInfo : Type;
  DownloadInfo : Type;
  BlockHeader : Type;
  (* build *)
  ExtendErr : string → error → error;
  (* modules.FileInfo and api.DownloadInfo *)
  FileInfo_SiaPath : FileInfo → string;
  FileInfo_Filesize : FileInfo → Z;
  DownloadInfo_SiaPath : DownloadInfo → string;
  DownloadInfo_Destination : DownloadInfo → string;
  DownloadInfo_Filesize : DownloadInfo → Z;
  DownloadInfo_Received : DownloadInfo → Z;
  (* node.NodeParams *)
  CreateMiner : NodeParams → bool;
  Miner_is_nil : NodeParams → bool;
  (* types *)
  MaturityDelay : nat;
  (* client requests; [RenterFilesGet] and [RenterDownloadsGet] answer with
     the [Files] and [Downloads] of the reply *)
  RenterFilesGet : Client → Api World (result (list FileInfo));
  RenterDownloadsGet : Client → Api World (result (list DownloadInfo));
  RenterDownloadGet :
    Client → string → string → Z → Z → bool → Api World (option error);
  RenterDownloadHTTPResponseGet :
    Client → string → Z → Z → Api World (result (list Z));
  RenterUploadPost :
    Client → string → string → Z → Z → Api World (option error);
  MinerHeaderGet : Client → Api World (result (list Z * BlockHeader));
  MinerHeaderPost : Client → BlockHeader → Api World (option error);
  WalletInitPost : Client → string → bool → Api World (result string);
  WalletUnlockPost : Client → string → Api World (option error);
  (* server and client *)
  server_New : string → string → string → NodeParams → Api World (result Server);
  APIAddress : Server → string;
  client_New : string → Client;
  set_UserAgent : string → Client → Client;
  set_Password : string → Client → Client;
  (* fastrand.Intn, which draws from the world, strconv.Itoa,
     filepath.Join and the directory of the tests *)
  fastrand_Intn : Z → Api World Z;
  Itoa : Z → string;
  filepath_Join : string → string → string;
  SiaTestingDir : string;
  (* encoding.Marshal of a header, crypto.HashBytes, the array [bh.Nonce],
     and the 8 bytes a [uint64] has in the memory of the machine *)
  Marshal : BlockHeader → list Z;
  HashBytes : list Z → list Z;
  set_Nonce : list Z → BlockHeader → BlockHeader;
  uint64_bytes : Z → list Z
}.

(** [type TestNode struct]: a server, a client and the primary seed. *)
Record TestNode `{Collaborators} := mkTestNode {
  tn_server : Server;
  tn_client : Client;
  primarySeed : string
}.

(** [bytes.Compare]: lexicographic, -1, 0 or 1. *)
Fixpoint bytes_Compare (a b : list Z) : Z :=
  match a, b with
  | [], [] => 0
  | [], _ :: _ => -1
  | _ :: _, [] => 1
  | x :: a', y :: b' =>
      if decide (x < y)%Z then -1
      else if decide (y < x)%Z then 1
      else bytes_Compare a' b'
  end.

(** The test of [solveHeader]: [bytes.Compare(target[:], id[:]) >= 0]. *)
Definition meets_target (target id : list Z) : Prop :=
  (0 ≤ bytes_Compare target id)%Z.

#[global] Instance meets_target_dec (target id : list Z)
    : Decision (meets_target target id) :=
  Z_le_dec 0 (bytes_Compare target id).

(** Writing 8 bytes over the bytes 32 to 39 of a header. *)
Definition write_nonce (bytes header : list Z) : list Z :=
  take 32 header ++ bytes ++ drop 40 header.

(** The bytes [header[32:40]]. *)
Definition nonce_of (header : list Z) : list Z := take 8 (drop 32 header).

Section Siatest.
Context `{Collaborators}.

(** The loop of [solveHeader], with the iterations that remain. *)
Fixpoint solveLoop (remaining : nat) (target : list Z) (bh : BlockHeader)
    (header : list Z) (nonce : Z) : result BlockHeader :=
  match remaining with
  | O => Err (ErrOther "couldn't solve block")
  | S remaining' =>
      if decide (meets_target target (HashBytes header))
      then Ok (set_Nonce (nonce_of header) bh)
      else solveLoop remaining' target bh
             (write_nonce (uint64_bytes nonce) header)
             ((nonce + 1) mod 2 ^ 64)
  end.

(** [solveHeader].  The code reads [header[32:40]] and writes a [uint64] at
    [&header[32]]; with fewer than 40 bytes that is a panic or an access
    outside the slice, which the model does not follow. *)
Definition solveHeader (target : list Z) (bh : BlockHeader)
    : option (result BlockHeader) :=
  if decide (length (Marshal bh) < 40) then None
  else Some (solveLoop 256 target bh (Marshal bh) 0).

(** The header that the hash is taken of in iteration [i]: the header as
    marshalled, then the header with nonce 0, 1, ... *)
Definition candidate (bh : BlockHeader) (i : nat) : list Z :=
  match i with
  | O => Marshal bh
  | S j => write_nonce (uint64_bytes (Z.of_nat j)) (Marshal bh)
  end.

(** [TestNode.Files]. *)
Definition Files (tn : TestNode) : Api World (result (list FileInfo)) :=
  req r <- RenterFilesGet (tn_client tn);
  match r with
  | Err e => api_ret (Err e)
  | Ok files => api_ret (Ok files)
  end.

(** The loop of [FileInfo] over the files. *)
Fixpoint findFile (sp : string) (files : list FileInfo) : result FileInfo :=
  match files with
  | [] => Err (ErrOther "file is not tracked by the renter")
  | file :: rest =>
      if decide (FileInfo_SiaPath file = sp) then Ok file
      else findFile sp rest
  end.

(** [TestNode.FileInfo]. *)
Definition getFileInfo (tn : TestNode) (tf : TestFile)
    : Api World (result FileInfo) :=
  req r <- Files tn;
  match r with
  | Err e => api_ret (Err e)
  | Ok files => api_ret (findFile (siaPath tf) files)
  end.

(** The loop of [DownloadInfo] over the downloads. *)
Fixpoint findDownload (tf : TestFile) (downloads : list DownloadInfo)
    : option DownloadInfo :=
  match downloads with
  | [] => None
  | d :: rest =>
      if decide (siaPath tf = DownloadInfo_SiaPath d ∧
                 path tf = DownloadInfo_Destination d)
      then Some d
      else findDownload tf rest
  end.

(** [TestNode.DownloadInfo]; [nil, nil] is [Ok None]. *)
Definition getDownloadInfo (tn : TestNode) (tf : TestFile)
    : Api World (result (option DownloadInfo)) :=
  req r <- RenterDownloadsGet (tn_client tn);
  match r with
  | Err e => api_ret (Err e)
  | Ok downloads => api_ret (Ok (findDownload tf downloads))
  end.

(** [TestNode.Download]. *)
Definition Download (tn : TestNode) (tf : TestFile)
    : Api World (result (list Z)) :=
  req r <- getFileInfo tn tf;
  match r with
  | Err e => api_ret (Err (ExtendErr "failed to retrieve FileInfo" e))
  | Ok fi =>
      RenterDownloadHTTPResponseGet (tn_client tn) (siaPath tf) 0
        (FileInfo_Filesize fi)
  end.

(** [math.MaxInt32]. *)
Definition MaxInt32 : Z := 2 ^ 31 - 1.

(** [TestNode.DownloadToDisk]. *)
Definition DownloadToDisk (tn : TestNode) (tf : TestFile) (async : bool)
    : Api World (result TestFile) :=
  req r <- getFileInfo tn tf;
  match r with
  | Err e => api_ret (Err (ExtendErr "failed to retrieve FileInfo" e))
  | Ok fi =>
      req n <- fastrand_Intn MaxInt32;
      let fileName := Itoa n in
      let dest := filepath_Join SiaTestingDir fileName in
      req err <- RenterDownloadGet (tn_client tn) (siaPath tf) dest 0
                   (FileInfo_Filesize fi) async;
      match err with
      | Some e => api_ret (Err (ExtendErr "failed to download file" e))
      | None => api_ret (Ok (mkTestFile dest fileName (siaPath tf)))
      end
  end.

(** [TestNode.Upload]. *)
Definition Upload (tn : TestNode) (tf : TestFile)
    (dataPieces parityPieces : Z) : Api World (option error) :=
  req err <- RenterUploadPost (tn_client tn) (path tf)
               (String.append "/" (fileName tf)) dataPieces parityPieces;
  match err with
  | Some e => api_ret (Some e)
  | None =>
      req r <- getFileInfo tn tf;
      match r with
      | Err e =>
          api_ret
            (Some (ExtendErr "uploaded file is not tracked by the renter" e))
      | Ok _ => api_ret None
      end
  end.

(** The function that [WaitForDownload] hands to [Retry]. *)
Definition downloadDone (tn : TestNode) (tf : TestFile)
    : Api World (option error) :=
  req r <- getDownloadInfo tn tf;
  match r with
  | Err e => api_ret (Some (ExtendErr "couldn't retrieve DownloadInfo" e))
  | Ok None => api_ret None
  | Ok (Some file) =>
      if decide (DownloadInfo_Filesize file ≠ DownloadInfo_Received file)
      then api_ret (Some (ErrOther "file hasn't finished downloading yet"))
      else api_ret None
  end.

(** [TestNode.MineBlock]. *)
Definition MineBlock (tn : TestNode) : Api World (option error) :=
  req r <- MinerHeaderGet (tn_client tn);
  match r with
  | Err e => api_ret (Some (ExtendErr "failed to get header for work" e))
  | Ok (target, header) =>
      req solved <- api_lift (solveHeader target header);
      match solved with
      | Err e => api_ret (Some (ExtendErr "failed to solve header" e))
      | Ok header' =>
          req err <- MinerHeaderPost (tn_client tn) header';
          match err with
          | Some e => api_ret (Some (ExtendErr "failed to submit header" e))
          | None => api_ret None
          end
      end
  end.

(** [NewCleanNode]. *)
Definition NewCleanNode (nodeParams : NodeParams)
    : Api World (result TestNode) :=
  let userAgent := "Sia-Agent" in
  let password := "password" in
  req r <- server_New ":0" userAgent password nodeParams;
  match r with
  | Err e => api_ret (Err e)
  | Ok s =>
      let c :=
        set_Password password (set_UserAgent userAgent
          (client_New (APIAddress s))) in
      let tn := mkTestNode _ s c "" in
      req wip <- WalletInitPost (tn_client tn) "" false;
      match wip with
      | Err e => api_ret (Err e)
      | Ok seed =>
          let tn := mkTestNode _ s c seed in
          req err <- WalletUnlockPost (tn_client tn) (primarySeed tn);
          match err with
          | Some e => api_ret (Err e)
          | None => api_ret (Ok tn)
          end
      end
  end.

(** The funding loop of [NewNode]:
    [for i := 0; i <= MaturityDelay; i++], with the counter [i] and a bound
    on the iterations that remain. *)
Fixpoint fundLoop (fuel : nat) (i : nat) (tn : TestNode)
    : Api World (option error) :=
  if decide (i ≤ MaturityDelay) then
    match fuel with
    | O => api_lift None
    | S fuel' =>
        req err <- MineBlock tn;
        match err with
        | Some e => api_ret (Some e)
        | None => fundLoop fuel' (S i) tn
        end
    end
  else api_ret None.

(** [NewNode]. *)
Definition NewNode (nodeParams : NodeParams) : Api World (result TestNode) :=
  if negb (CreateMiner nodeParams) && Miner_is_nil nodeParams
  then api_ret (Err (ErrOther "Can't create funded node without miner"))
  else
    req r <- NewCleanNode nodeParams;
    match r with
    | Err e => api_ret (Err e)
    | Ok tn =>
        req err <- fundLoop (S (S MaturityDelay)) 0 tn;
        match err with
        | Some e => api_ret (Err e)
        | None => api_ret (Ok tn)
        end
    end.

(** [n] calls of [MineBlock], one after the other, each returning nil. *)
Fixpoint mined (n : nat) (tn : TestNode) (w w' : World) : Prop :=
  match n with
  | O => w = w'
  | S n' =>
      ∃ w1, MineBlock tn w = Some (None, w1) ∧ mined n' tn w1 w'
  end.
End Siatest.

(** The 8 bytes of a [uint64] on a little-endian machine. *)
Definition le64 (n : Z) : list Z :=
  (λ i, (n / 256 ^ Z.of_nat i) mod 256)%Z <$> seq 0 8.

(** A small node to run the test node against.  The world is the height of
    the chain and the files the renter tracks; an upload adds a file, a
    submitted header adds a block, and the random source gives the height
    and moves on.  Headers are their own 80 bytes, the hash
    of a header is its nonce, and the target is 5 followed by nothing up to
    height 99 and empty from height 100, where no header meets it. *)
Definition sampleHeader : list Z := replicate 80 9%Z.

Definition sampleDownloads : list (string * string * (Z * Z)) :=
  [("/g", "p", (7, 7)); ("/f", "p", (10, 4)); ("/f", "p", (10, 10))]%Z.

Definition sampleCollaborators : Collaborators := {|
  World := nat * list (string * Z);
  Server := unit;
  Client := unit;
  NodeParams := bool * bool;
  FileInfo := string * Z;
  DownloadInfo := string * string * (Z * Z);
  BlockHeader := list Z;
  ExtendErr := λ context _, ErrOther context;
  FileInfo_SiaPath := fst;
  FileInfo_Filesize := snd;
  DownloadInfo_SiaPath := λ d, d.1.1;
  DownloadInfo_Destination := λ d, d.1.2;
  DownloadInfo_Filesize := λ d, d.2.1;
  DownloadInfo_Received := λ d, d.2.2;
  CreateMiner := fst;
  Miner_is_nil := snd;
  MaturityDelay := 2;
  RenterFilesGet := λ _ w, Some (Ok w.2, w);
  RenterDownloadsGet := λ _ w, Some (Ok sampleDownloads, w);
  RenterDownloadGet := λ _ _ _ _ _ _ w, Some (None, w);
  RenterDownloadHTTPResponseGet := λ _ _ _ len w, Some (Ok [len], w);
  RenterUploadPost := λ _ _ sp _ _ w, Some (None, (w.1, w.2 ++ [(sp, 0%Z)]));
  MinerHeaderGet := λ _ w,
    Some (Ok (if decide (w.1 < 100) then [5%Z] else [], sampleHeader), w);
  MinerHeaderPost := λ _ _ w, Some (None, (S w.1, w.2));
  WalletInitPost := λ _ _ _ w, Some (Ok "seed", w);
  WalletUnlockPost := λ _ _ w, Some (None, w);
  server_New := λ _ _ _ _ w, Some (Ok (), w);
  APIAddress := λ _, "localhost";
  client_New := λ _, ();
  set_UserAgent := λ _ c, c;
  set_Password := λ _ c, c;
  fastrand_Intn := λ _ w, Some (Z.of_nat w.1, (S w.1, w.2));
  Itoa := λ n, if decide (n = 0%Z) then "0" else "n";
  filepath_Join := λ dir name, String.append dir (String.append "/" name);
  SiaTestingDir := "/tmp";
  Marshal := id;
  HashBytes := nonce_of;
  set_Nonce := λ bytes bh, write_nonce bytes bh;
  uint64_bytes := le64
|}.

Definition sampleNode : @TestNode sampleCollaborators :=
  @mkTestNode sampleCollaborators () () "seed".

Definition fileF : TestFile := mkTestFile "p" "f" "/f".

(** A file whose path in the renter is not the name it is uploaded under. *)
Definition fileG : TestFile := mkTestFile "p" "f" "/elsewhere".

(** The header of the sample node, as a block header. *)
Definition sampleBlock : @BlockHeader sampleCollaborators := sampleHeader.

(** Parameters of the sample node: whether they create a miner, and whether
    the miner they bring is nil. *)
Definition sampleParams (createMiner minerIsNil : bool)
    : @NodeParams sampleCollaborators := (createMiner, minerIsNil).
(** * Proofs *)

(** ** Walks over ordered heaps end *)

Lemma erase_length h h' : erase h = erase h' → length h = length h'.
Proof.
  intros E. apply (f_equal length) in E. unfold erase in E.
  by rewrite !length_fmap in E.
Qed.

Lemma erase_lookup h h' a n' :
  erase h = erase h' → h' !! a = Some n' →
  ∃ n, h !! a = Some n ∧ parent n = parent n' ∧ lchild n = lchild n' ∧
       rchild n = rchild n' ∧ hostEntry n = hostEntry n'.
Proof.
  intros E Hn'. apply (f_equal (λ l, l !! a)) in E. unfold erase in E.
  rewrite !list_lookup_fmap, Hn' in E.
  destruct (h !! a) as [n|]; simplify_eq/=.
  exists n. by destruct n, n'; simplify_eq/=.
Qed.

Lemma erase_insert_weight h a n w :
  h !! a = Some n → erase (<[a := set_weight w n]> h) = erase h.
Proof.
  intros Hn. unfold erase. rewrite list_fmap_insert.
  apply list_insert_id. by rewrite list_lookup_fmap, Hn.
Qed.

Lemma child_eq sd n n' :
  lchild n = lchild n' → rchild n = rchild n' → child sd n = child sd n'.
Proof. by destruct sd. Qed.

Lemma ordered_erase h h' : erase h = erase h' → ordered h → ordered h'.
Proof.
  intros E Ho a n' Hn'.
  destruct (erase_lookup _ _ _ _ E Hn') as (n & Hn & Hp & Hl & Hr & _).
  destruct (Ho a n Hn) as [H1 H2]. rewrite <- (erase_length _ _ E). split.
  - intros p. rewrite <- Hp. apply H1.
  - intros sd c. rewrite <- (child_eq sd n n' Hl Hr). apply H2.
Qed.

(** Replacing a node by one with the same parent and fewer or equal
    children keeps the heap ordered. *)
Lemma ordered_insert h a n m :
  ordered h → h !! a = Some n → parent m = parent n →
  (∀ sd c, child sd m = Some c → child sd n = Some c) →
  ordered (<[a := m]> h).
Proof.
  intros Ho Hn Hp Hc b k Hk. rewrite length_insert.
  destruct (decide (a = b)) as [->|Hne].
  - rewrite list_lookup_insert_eq in Hk by eauto using lookup_lt_Some.
    simplify_eq. destruct (Ho b n Hn) as [H1 H2]. split.
    + intros p. rewrite Hp. apply H1.
    + intros sd c Hsd. apply (H2 sd), Hc, Hsd.
  - rewrite list_lookup_insert_ne in Hk by done. by apply Ho.
Qed.

Lemma outermost_total sd fuel h a :
  ordered h → a < length h → length h ≤ fuel + a →
  ∃ d m, outermost sd fuel h a = Some d ∧ a ≤ d ∧ h !! d = Some m ∧
         child sd m = None.
Proof.
  intros Ho. revert a. induction fuel as [|fuel IH]; intros a Ha Hf; [lia|].
  destruct (lookup_lt_is_Some_2 h a Ha) as [n Hn]. cbn [outermost findSlot propagate remove]. rewrite Hn. simpl.
  destruct (child sd n) as [c|] eqn:Hc.
  - destruct (Ho a n Hn) as [_ H2]. specialize (H2 sd c Hc).
    destruct (IH c) as (d & m & -> & Hd & Hm & Hnone); [lia..|].
    exists d, m. repeat split; auto; lia.
  - exists a, n. repeat split; auto.
Qed.

Lemma findSlot_total fuel h a :
  ordered h → a < length h → length h ≤ fuel + a →
  ∃ b sd n, findSlot fuel h a = Some (b, sd) ∧ a ≤ b ∧ h !! b = Some n ∧
            child sd n = None.
Proof.
  intros Ho. revert a. induction fuel as [|fuel IH]; intros a Ha Hf; [lia|].
  destruct (lookup_lt_is_Some_2 h a Ha) as [n Hn]. cbn [outermost findSlot propagate remove]. rewrite Hn. simpl.
  destruct (child (lighter h n) n) as [c|] eqn:Hc.
  - destruct (Ho a n Hn) as [_ H2]. specialize (H2 _ c Hc).
    destruct (IH c) as (b & sd & m & -> & Hb & Hm & Hnone); [lia..|].
    exists b, sd, m. repeat split; auto; lia.
  - exists a, (lighter h n), n. repeat split; auto.
Qed.

Lemma propagate_total fuel h o delta :
  ordered h → (∀ a, o = Some a → a < fuel ∧ a < length h) →
  ∃ h', propagate fuel h o delta = Some h' ∧ erase h' = erase h.
Proof.
  revert h o. induction fuel as [|fuel IH]; intros h o Ho Hb.
  - destruct o as [a|]; [destruct (Hb a eq_refl); lia|]. by exists h.
  - destruct o as [a|]; [|by exists h].
    destruct (Hb a eq_refl) as [Haf Ha].
    destruct (lookup_lt_is_Some_2 h a Ha) as [n Hn]. cbn [outermost findSlot propagate remove]. rewrite Hn. simpl.
    pose proof (erase_insert_weight h a n (weight n + delta) Hn) as E.
    destruct (IH (<[a := set_weight (weight n + delta) n]> h) (parent n))
      as (h' & Hh' & E').
    + eapply ordered_erase; [symmetry; exact E | done].
    + intros p Hp. destruct (Ho a n Hn) as [H1 _]. specialize (H1 p Hp).
      rewrite length_insert. lia.
    + exists h'. split; [done|]. by rewrite E'.
Qed.

Lemma remove_total fuel a h :
  ordered h → a < length h → length h ≤ fuel + a →
  ∃ h', remove fuel a h = Some h' ∧ length h' = length h ∧ ordered h'.
Proof.
  revert a h. induction fuel as [|fuel IH]; intros a h Ho Ha Hf; [lia|].
  destruct (lookup_lt_is_Some_2 h a Ha) as [n Hn]. cbn [outermost findSlot propagate remove]. rewrite Hn. simpl.
  assert (Hrec : ∀ sd c, child sd n = Some c →
    ∃ h', (d ← outermost sd (length h) h c; m ← h !! d;
           remove fuel d (<[a := set_hostEntry (hostEntry m) n]> h)) = Some h'
          ∧ length h' = length h ∧ ordered h').
  { intros sd c Hc. destruct (Ho a n Hn) as [_ H2]. specialize (H2 sd c Hc).
    destruct (outermost_total sd (length h) h c) as (d & m & -> & Hd & Hm & _);
      [done|lia|lia|].
    simpl. rewrite Hm. simpl.
    destruct (IH d (<[a := set_hostEntry (hostEntry m) n]> h))
      as (h' & -> & Hlen & Ho').
    - apply (ordered_insert h a n); [done|done|done|by intros [] ?].
    - rewrite length_insert. eauto using lookup_lt_Some.
    - rewrite length_insert. lia.
    - exists h'. rewrite length_insert in Hlen. done. }
  destruct (rchild n) as [r|] eqn:Hr; [exact (Hrec SRight r Hr)|].
  destruct (lchild n) as [l|] eqn:Hl; [exact (Hrec SLeft l Hl)|].
  set (h1 := match parent n with
             | Some p => from_option (λ m, <[p := detach a m]> h) h (h !! p)
             | None => h end).
  assert (Hh1 : ordered h1 ∧ length h1 = length h).
  { unfold h1. destruct (parent n) as [p|]; [|done].
    destruct (h !! p) as [m|] eqn:Hm; [|done]. simpl. split.
    - eapply ordered_insert; eauto.
      + unfold detach. by repeat case_decide.
      + intros sd c. unfold detach.
        repeat case_decide; destruct sd; simpl; congruence.
    - apply length_insert. }
  destruct Hh1 as [Ho1 Hlen1].
  destruct (propagate_total (length h1) h1 (parent n) (- ownWeight n))
    as (h' & -> & E); [done| |].
  - intros p Hp. destruct (Ho a n Hn) as [H1 _]. specialize (H1 p Hp). lia.
  - exists h'. split; [done|]. split.
    + rewrite <- Hlen1. apply erase_length. done.
    + eapply ordered_erase; [symmetry; exact E | done].
Qed.

Lemma insert_total root entry h :
  ordered h → root < length h →
  ∃ h', insert root entry h = Some (h', (Weight entry, length h)) ∧
        length h' = S (length h) ∧ ordered h'.
Proof.
  intros Ho Hr. unfold insert.
  destruct (findSlot_total (length h) h root) as (a & sd & n & -> & _ & Hn & Hc);
    [done|lia|lia|].
  simpl. rewrite Hn. simpl.
  set (leaf := mkNode (Some a) (Weight entry) None None entry).
  set (h2 := <[a := set_child sd (Some (length h)) n]> (h ++ [leaf])).
  pose proof (lookup_lt_Some _ _ _ Hn) as Ha.
  assert (Hlen2 : length h2 = S (length h)).
  { unfold h2. rewrite length_insert, length_app. simpl. lia. }
  assert (Ho2 : ordered h2).
  { intros b k Hk. rewrite Hlen2. unfold h2 in Hk.
    destruct (decide (a = b)) as [->|Hne].
    - rewrite list_lookup_insert_eq in Hk by (rewrite length_app; lia).
      simplify_eq. destruct (Ho b n Hn) as [H1 H2]. split.
      + intros p Hp. apply H1. by destruct sd.
      + intros sd' c Hc'. destruct (decide (sd' = sd)) as [->|Hsd].
        * destruct sd; simpl in Hc'; simplify_eq; lia.
        * assert (child sd' n = Some c) as Hc'' by (by destruct sd, sd').
          specialize (H2 _ _ Hc''). lia.
    - rewrite list_lookup_insert_ne in Hk by done.
      apply lookup_snoc_Some in Hk as [[Hb Hk]|[-> <-]].
      + destruct (Ho b k Hk) as [H1 H2]. split; [done|].
        intros sd' c Hc'. specialize (H2 _ _ Hc'). lia.
      + split; [intros p; simpl; intros; simplify_eq; lia|].
        intros [] c; simpl; done. }
  destruct (propagate_total (length h2) h2 (Some a) (Weight entry))
    as (h3 & Hh3 & E); [done|intros ? [= <-]; lia|].
  fold leaf. fold h2. rewrite Hh3. simpl. exists h3. split; [done|]. split.
  - rewrite <- Hlen2. by apply erase_length.
  - eapply ordered_erase; [symmetry; exact E | done].
Qed.

(** ** Running the container's calls on a free lock *)

Lemma touch_eq s :
  dbLock (hdb s) = Unlocked →
  touch s = mkState (heap s) (hdb s) (EvUnlock :: EvLock :: trace s).
Proof. destruct s as [h [r a i l] t]. simpl. by intros ->. Qed.

Lemma Insert_unlocked entry s :
  dbLock (hdb s) = Unlocked →
  Insert entry s =
    match activeHosts (hdb s) !! ID entry with
    | Some _ => Ret (Some ErrExists) (touch s)
    | None =>
        match hostTree (hdb s) with
        | None =>
            Ret None (touch
              (set_activeHosts
                 (<[ID entry := length (heap s)]> (activeHosts (hdb s)))
                 (set_hostTree (Some (length (heap s)))
                    (set_heap (heap s ++
                       [mkNode None (Weight entry) None None entry]) s))))
        | Some root =>
            match insert root entry (heap s) with
            | Some (h, (_, a)) =>
                Ret None (touch
                  (set_activeHosts (<[ID entry := a]> (activeHosts (hdb s)))
                     (set_heap h s)))
            | None => Panic (touch s)
            end
        end
    end.
Proof.
  intros Hl. unfold Insert, bind, defer, lock, unlock. rewrite Hl. simpl.
  destruct (activeHosts (hdb s) !! ID entry); [done|].
  destruct (hostTree (hdb s)); [|done].
  by destruct (insert _ _ _) as [[? [? ?]]|].
Qed.

Lemma Remove_unlocked id s :
  dbLock (hdb s) = Unlocked →
  Remove id s =
    match activeHosts (hdb s) !! id with
    | None =>
        match inactiveHosts (hdb s) !! id with
        | Some _ =>
            Ret None
              (touch (set_inactiveHosts (delete id (inactiveHosts (hdb s))) s))
        | None => Ret (Some ErrNotFound) (touch s)
        end
    | Some node =>
        match remove (length (heap s)) node (heap s) with
        | Some h =>
            Ret None (touch (set_heap h
              (set_activeHosts (delete id (activeHosts (hdb s))) s)))
        | None =>
            Panic (touch (set_activeHosts (delete id (activeHosts (hdb s))) s))
        end
    end.
Proof.
  intros Hl. unfold Remove, bind, defer, lock, unlock. rewrite Hl. simpl.
  destruct (activeHosts (hdb s) !! id).
  - by destruct (remove _ _ _).
  - by destruct (inactiveHosts (hdb s) !! id).
Qed.

Lemma lock_held {A} (m : M A) s :
  dbLock (hdb s) ≠ Unlocked → (perform lock; m) s = Blocked s.
Proof. unfold bind, lock. by destruct (dbLock (hdb s)). Qed.

Lemma wf_init : wf init.
Proof.
  split; [|split].
  - intros a n H. by destruct a.
  - intros r H. done.
  - intros id a H. simpl in H. by rewrite lookup_empty in H.
Qed.

Lemma wf_touch s : wf s → wf (touch s).
Proof. by intros (?&?&?). Qed.

Lemma wf_Insert entry s :
  dbLock (hdb s) = Unlocked → wf s → wf (state_of (Insert entry s)).
Proof.
  intros Hl (Ho & Hr & Ha). rewrite Insert_unlocked by done.
  destruct (activeHosts (hdb s) !! ID entry) as [a|] eqn:Hact;
    [by apply wf_touch|].
  destruct (hostTree (hdb s)) as [root|] eqn:Hroot.
  - destruct (insert_total root entry (heap s) Ho (Hr root eq_refl))
      as (h' & -> & Hlen & Ho').
    apply wf_touch. split; [done|]. simpl. rewrite Hlen, Hroot. split.
    + intros r [= <-]. specialize (Hr root eq_refl). lia.
    + intros id a [[_ <-]|[_ H]]%lookup_insert_Some; [lia|].
      specialize (Ha _ _ H). lia.
  - apply wf_touch. split; [|split]; simpl; rewrite ?length_app; simpl.
    + intros a n Hn. unfold links_ok. rewrite length_app. simpl.
      apply lookup_snoc_Some in Hn as [[Hlt Hn]|[-> <-]].
      * destruct (Ho a n Hn) as [H1 H2]. split; [done|].
        intros sd c Hc. specialize (H2 _ _ Hc). lia.
      * split; [done|]. by intros [].
    + intros r [= <-]. lia.
    + intros id a [[_ <-]|[_ H]]%lookup_insert_Some; [lia|].
      specialize (Ha _ _ H). lia.
Qed.

Lemma wf_Remove id s :
  dbLock (hdb s) = Unlocked → wf s → wf (state_of (Remove id s)).
Proof.
  intros Hl (Ho & Hr & Ha). rewrite Remove_unlocked by done.
  destruct (activeHosts (hdb s) !! id) as [a|] eqn:Hact.
  - destruct (remove_total (length (heap s)) a (heap s))
      as (h' & -> & Hlen & Ho'); [done|by eapply Ha|lia|].
    apply wf_touch. split; [done|]. simpl. rewrite Hlen. split; [done|].
    intros id' a' [_ H]%lookup_delete_Some. by eapply Ha.
  - destruct (inactiveHosts (hdb s) !! id); by apply wf_touch.
Qed.

(** ** Insert, Remove and RandomHost on their own *)

Lemma Insert_keeps_free entry s :
  dbLock (hdb s) = Unlocked → dbLock (hdb (state_of (Insert entry s))) = Unlocked.
Proof.
  intros Hl. rewrite Insert_unlocked by done.
  destruct (activeHosts (hdb s) !! ID entry); [done|].
  destruct (hostTree (hdb s)); [|done].
  by destruct (insert _ _ _) as [[? [? ?]]|].
Qed.

Lemma Remove_keeps_free id s :
  dbLock (hdb s) = Unlocked → dbLock (hdb (state_of (Remove id s))) = Unlocked.
Proof.
  intros Hl. rewrite Remove_unlocked by done.
  destruct (activeHosts (hdb s) !! id).
  - by destruct (remove _ _ _).
  - by destruct (inactiveHosts (hdb s) !! id).
Qed.

Lemma stateA_free : dbLock (hdb stateA) = Unlocked.
Proof. by apply Insert_keeps_free. Qed.

Lemma stateA_wf : wf stateA.
Proof. apply wf_Insert; [done | apply wf_init]. Qed.

Lemma stateAB_free : dbLock (hdb stateAB) = Unlocked.
Proof. apply Insert_keeps_free, stateA_free. Qed.

Lemma stateAB_wf : wf stateAB.
Proof. apply wf_Insert; [apply stateA_free | apply stateA_wf]. Qed.

(** C7: on a free lock, [Insert] of an entry whose id is in the active
    index returns the already-exists error, and the heap (so every stored
    entry), the tree root, both indices and the lock are as before; only
    the lock log has grown by one acquire and one release. *)
Theorem Insert_duplicate_rejected (entry : HostEntry) (s : State) :
  dbLock (hdb s) = Unlocked →
  is_Some (activeHosts (hdb s) !! ID entry) →
  Insert entry s =
    Ret (Some ErrExists)
      (mkState (heap s) (hdb s) (EvUnlock :: EvLock :: trace s)).
Proof.
  intros Hl [a Ha]. rewrite Insert_unlocked, Ha by done.
  by rewrite touch_eq.
Qed.

Lemma Insert_duplicate_rejected_witness :
  Insert (mkEntry "A" 99) stateA =
    Ret (Some ErrExists)
      (mkState (heap stateA) (hdb stateA) (EvUnlock :: EvLock :: trace stateA)).
Proof.
  apply Insert_duplicate_rejected.
  - reflexivity.
  - vm_compute. eexists. reflexivity.
Defined.



(** C10: [RandomHost] leaves the container as it found it: the heap, the
    tree root, both indices and the lock are the same after the call,
    whatever the lock state, the random source and the way the call ends
    (an entry, an error such as no-hosts on an empty active index, a panic,
    or waiting on a lock held by a writer). *)
Theorem RandomHost_frame (rand_Int : Z → result Z) (s : State) :
  heap (state_of (RandomHost rand_Int s)) = heap s ∧
  hdb (state_of (RandomHost rand_Int s)) = hdb s.
Proof.
  destruct s as [h [r a i l] t].
  unfold RandomHost, bind, defer, rLock, rUnlock. simpl.
  destruct l as [| |k]; simpl; [|done|].
  - case_decide; [done|]. destruct r as [root|]; [|done].
    destruct (h !! root) as [n|]; [|done].
    case_decide; [done|]. by destruct (rand_Int _).
  - case_decide; [done|]. destruct r as [root|]; [|done].
    destruct (h !! root) as [n|]; [|done].
    case_decide; [done|]. by destruct (rand_Int _).
Qed.

(** On an empty active index the call ends with the no-hosts error. *)
Lemma RandomHost_empty rand_Int s :
  dbLock (hdb s) = Unlocked → activeHosts (hdb s) = ∅ →
  RandomHost rand_Int s =
    Ret (Err ErrNoHosts)
      (mkState (heap s) (hdb s) (EvRUnlock :: EvRLock :: trace s)).
Proof.
  destruct s as [h [r a i l] t]. simpl. intros -> ->.
  unfold RandomHost, bind, defer, rLock, rUnlock. simpl.
  by rewrite decide_True by apply map_size_empty.
Qed.

(** ** The reorg reconciler *)

Lemma preserves_ret {A} P (a : A) : preserves P (ret a).
Proof. by intros s. Qed.

Lemma preserves_bind {A B} P (m : M A) (k : A → M B) :
  preserves P m → (∀ a, preserves P (k a)) → preserves P (bind m k).
Proof.
  intros Hm Hk s Hs. specialize (Hm s Hs). unfold bind.
  destruct (m s) as [a s'| |]; simpl in *; [by apply Hk|done..].
Qed.

Lemma preserves_defer {A} P (d : M unit) (body : M A) :
  preserves P d → preserves P body → preserves P (defer d body).
Proof.
  intros Hd Hb s Hs. specialize (Hb s Hs). unfold defer.
  destruct (body s) as [a s'|s'|s']; simpl in *; [| |done];
    specialize (Hd s' Hb); by destruct (d s').
Qed.

Section LockBlind.
Variable P : State → Prop.
Hypothesis P_lock : ∀ l ev s, P s → P (set_dbLock l ev s).

Lemma preserves_lock : preserves P lock.
Proof. intros s Hs. unfold lock. destruct (dbLock (hdb s)); simpl; auto. Qed.

Lemma preserves_unlock : preserves P unlock.
Proof. intros s Hs. unfold unlock. destruct (dbLock (hdb s)); simpl; auto. Qed.
End LockBlind.

Lemma no_inactive_lock l ev s : no_inactive s → no_inactive (set_dbLock l ev s).
Proof. done. Qed.

Lemma no_inactive_Insert entry : preserves no_inactive (Insert entry).
Proof.
  apply preserves_bind; [apply preserves_lock, no_inactive_lock|intros _].
  apply preserves_defer; [apply preserves_unlock, no_inactive_lock|].
  intros s Hs. destruct (activeHosts (hdb s) !! ID entry); [done|].
  destruct (hostTree (hdb s)); [|done].
  by destruct (insert _ _ _) as [[? [? ?]]|].
Qed.

Lemma no_inactive_Remove id : preserves no_inactive (Remove id).
Proof.
  apply preserves_bind; [apply preserves_lock, no_inactive_lock|intros _].
  apply preserves_defer; [apply preserves_unlock, no_inactive_lock|].
  intros s Hs. cbv beta zeta. destruct (activeHosts (hdb s) !! id).
  - by destruct (remove _ _ _).
  - destruct (inactiveHosts (hdb s) !! id); [|done]. unfold no_inactive in *.
    simpl. rewrite Hs. apply delete_empty.
Qed.

Lemma clash_app taken l1 l2 :
  clash taken (l1 ++ l2) ↔
  clash taken l1 ∨ clash (list_to_set (ID <$> l1) ∪ taken) l2.
Proof.
  revert taken. induction l1 as [|e l1 IH]; intros taken; simpl.
  - rewrite (left_id_L ∅ (∪)). tauto.
  - rewrite IH.
    replace (list_to_set (ID <$> l1) ∪ ({[ID e]} ∪ taken))
      with ({[ID e]} ∪ list_to_set (ID <$> l1) ∪ taken) by set_solver.
    tauto.
Qed.

Lemma clash_spec (D : gset string) entries :
  clash D entries ↔
  ¬ NoDup (ID <$> entries) ∨ ∃ e, e ∈ entries ∧ ID e ∈ D.
Proof.
  revert D. induction entries as [|e l IH]; intros D; simpl.
  - split; [done|]. intros [H|(e & He & _)]; [apply H; constructor|].
    by apply elem_of_nil in He.
  - rewrite IH, NoDup_cons. split.
    + intros [H|[H|(e' & He' & [H|H]%elem_of_union)]].
      * right. exists e. split; [left|done].
      * left. tauto.
      * left. apply elem_of_singleton in H. intros [Hn _]. apply Hn.
        rewrite <- H. apply list_elem_of_fmap. by exists e'.
      * right. exists e'. split; [by right|done].
    + intros [H|(e' & [->|He']%elem_of_cons & HD)].
      * destruct (decide (ID e ∈ ID <$> l)) as [Hin|Hin].
        -- apply list_elem_of_fmap in Hin as (e' & Heq & He').
           right; right. exists e'. split; [done|]. set_solver.
        -- right; left. tauto.
      * by left.
      * right; right. exists e'. split; [done|]. set_solver.
Qed.

Lemma clash_conflict s entries :
  clash (dom (activeHosts (hdb s))) entries ↔ conflict s entries.
Proof.
  rewrite clash_spec. unfold conflict.
  by setoid_rewrite elem_of_dom.
Qed.

(** What one [Insert] does to the active index, on a free lock. *)
Lemma Insert_spec entry s :
  dbLock (hdb s) = Unlocked → wf s →
  ∃ err s', Insert entry s = Ret err s' ∧
    dbLock (hdb s') = Unlocked ∧ wf s' ∧
    inactiveHosts (hdb s') = inactiveHosts (hdb s) ∧
    trace s' = EvUnlock :: EvLock :: trace s ∧
    (ID entry ∈ dom (activeHosts (hdb s)) →
       err = Some ErrExists ∧
       dom (activeHosts (hdb s')) = dom (activeHosts (hdb s))) ∧
    (ID entry ∉ dom (activeHosts (hdb s)) →
       err = None ∧
       dom (activeHosts (hdb s')) = {[ID entry]} ∪ dom (activeHosts (hdb s))).
Proof.
  intros Hl Hwf.
  pose proof (wf_Insert entry s Hl Hwf) as Hwf'.
  pose proof (Insert_keeps_free entry s Hl) as Hl'.
  destruct Hwf as (Ho & Hr & Ha).
  rewrite Insert_unlocked in * by done.
  destruct (activeHosts (hdb s) !! ID entry) as [a|] eqn:Hact.
  - eexists _, _. split; [done|]. split_and!; try done.
    intros Hn. exfalso. apply Hn, elem_of_dom. eauto.
  - assert (ID entry ∉ dom (activeHosts (hdb s))) as Hnot
      by (by apply not_elem_of_dom).
    destruct (hostTree (hdb s)) as [root|] eqn:Hroot.
    + destruct (insert_total root entry (heap s) Ho (Hr root eq_refl))
        as (h' & Hins & _). rewrite Hins in *.
      eexists _, _. split; [done|]. split_and!; try done.
      simpl. by rewrite dom_insert_L.
    + eexists _, _. split; [done|]. split_and!; try done.
      simpl. by rewrite dom_insert_L.
Qed.

Lemma wf_lock l ev s : wf s → wf (set_dbLock l ev s).
Proof. by intros (?&?&?). Qed.

Lemma join_replicate_snoc {A} k (x : list A) :
  mjoin (replicate (S k) x) = mjoin (replicate k x) ++ x.
Proof.
  change (replicate (S k) x) with (x :: replicate k x).
  rewrite replicate_cons_app, join_app. simpl. by rewrite app_nil_r.
Qed.

Lemma rev_join_replicate {A} k (x : list A) :
  rev (mjoin (replicate k x)) = mjoin (replicate k (rev x)).
Proof.
  induction k as [|k IH]; [done|].
  rewrite join_replicate_snoc. simpl. by rewrite rev_app_distr, IH.
Qed.

Lemma Remove_held id s : dbLock (hdb s) ≠ Unlocked → Remove id s = Blocked s.
Proof. intros Hl. unfold Remove. by apply lock_held. Qed.

Section UpdateProofs.
Context {Block : Type}.
Variable scan : Z → Block → result (list HostEntry).

  (** The inner loop of the apply phase, started with the lock held. *)
Lemma insertEntries_spec entries s :
    dbLock (hdb s) = WLocked → wf s →
    ∃ err s' inserted k, insertEntries entries s = Ret err s' ∧
      dbLock (hdb s') = WLocked ∧ wf s' ∧
      inactiveHosts (hdb s') = inactiveHosts (hdb s) ∧
      inserted `prefix_of` entries ∧ (err = None → inserted = entries) ∧
      dom (activeHosts (hdb s')) =
        list_to_set (ID <$> inserted) ∪ dom (activeHosts (hdb s)) ∧
      (is_Some err ↔ clash (dom (activeHosts (hdb s))) entries) ∧
      trace s' = mjoin (replicate k (rev cycle)) ++ trace s ∧
      k ≤ length entries.
Proof.
    revert s. induction entries as [|e rest IH]; intros s Hl Hwf.
    - exists None, s, [], 0. simpl. split_and!; try done. set_solver.
    - cbn [insertEntries]. unfold bind at 1. unfold unlock at 1. rewrite Hl.
      set (s1 := set_dbLock Unlocked EvUnlock s).
      destruct (Insert_spec e s1) as
        (err & s2 & HI & Hl2 & Hwf2 & Hin2 & Ht2 & Hdup & Hnew);
        [done|by apply wf_lock|].
      unfold bind at 1. rewrite HI.
      unfold bind at 1. unfold lock at 1. rewrite Hl2.
      set (s3 := set_dbLock WLocked EvLock s2).
      simpl in Hin2, Ht2, Hdup, Hnew.
      destruct (decide (ID e ∈ dom (activeHosts (hdb s)))) as [Hd|Hd].
      + destruct (Hdup Hd) as [-> Hdom].
        exists (Some ErrExists), s3, [], 1.
        split; [done|]. split; [done|]. split; [by apply wf_lock|].
        split; [done|]. split; [apply prefix_nil|]. split; [done|].
        split; [simpl; rewrite Hdom; set_solver|].
        split; [split; [by left|by eauto]|].
        split; [simpl; by rewrite Ht2|simpl; lia].
      + destruct (Hnew Hd) as [-> Hdom].
        destruct (IH s3) as
          (err & s' & ins & k & HR & Hl' & Hwf' & Hin' & Hpre & Hall & Hdom'
             & Hiff & Ht' & Hk); [done|by apply wf_lock|].
        simpl in Hin', Hdom', Hiff, Ht'.
        exists err, s', (e :: ins), (S k). rewrite HR.
        split; [done|]. split; [done|]. split; [done|].
        split; [by rewrite Hin'|]. split; [by apply prefix_cons|].
        split; [intros H; by rewrite (Hall H)|].
        split; [rewrite Hdom'; simpl; rewrite Hdom; set_solver|].
        split; [|split].
        * rewrite Hiff. simpl. rewrite Hdom. tauto.
        * rewrite Ht', join_replicate_snoc. simpl. rewrite Ht2.
          by rewrite <- app_assoc.
        * simpl. lia.
Qed.

  (** The loop over the applied blocks, started with the lock held. *)
Lemma applyBlocks_spec height blocks s :
    dbLock (hdb s) = WLocked → wf s →
    ∃ err s' inserted k, applyBlocks scan height blocks s = Ret err s' ∧
      dbLock (hdb s') = WLocked ∧ wf s' ∧
      inactiveHosts (hdb s') = inactiveHosts (hdb s) ∧
      inserted `prefix_of` announced scan height blocks ∧
      dom (activeHosts (hdb s')) =
        list_to_set (ID <$> inserted) ∪ dom (activeHosts (hdb s)) ∧
      (is_Some err ↔
         (∃ b, b ∈ blocks ∧ scan_fails scan height b) ∨
         clash (dom (activeHosts (hdb s))) (announced scan height blocks)) ∧
      trace s' = mjoin (replicate k (rev cycle)) ++ trace s ∧
      k ≤ length (announced scan height blocks).
Proof.
    revert s. induction blocks as [|b rest IH]; intros s Hl Hwf.
    - exists None, s, [], 0. simpl. split_and!; try done; [set_solver|].
      split; [by intros [? ?]|].
      intros [(b & Hb & _)|[]]. by apply elem_of_nil in Hb.
    - cbn [applyBlocks announced].
      destruct (scan height b) as [entries|e] eqn:Hscan.
      + destruct (insertEntries_spec entries s Hl Hwf) as
          (err1 & s1 & ins1 & k1 & HR1 & Hl1 & Hwf1 & Hin1 & Hpre1 & Hall1
             & Hdom1 & Hiff1 & Ht1 & Hk1).
        unfold bind at 1. rewrite HR1.
        assert (∀ P : Prop, ((∃ b0, b0 ∈ b :: rest ∧ scan_fails scan height b0)
                  ↔ (∃ b0, b0 ∈ rest ∧ scan_fails scan height b0))) as Hex.
        { intros _. split.
          - intros (b0 & [->|Hb0]%elem_of_cons & Hf); [|by eauto].
            destruct Hf as [e Hf]. congruence.
          - intros (b0 & Hb0 & Hf). exists b0. split; [by right|done]. }
        destruct err1 as [e1|].
        * exists (Some e1), s1, ins1, k1.
          split; [done|]. split; [done|]. split; [done|]. split; [done|].
          split; [by apply prefix_app_r|]. split; [done|].
          split; [split; [|by eauto]|].
          { intros _. right. apply clash_app. left. apply Hiff1. eauto. }
          split; [done|rewrite length_app; lia].
        * rewrite (Hall1 eq_refl) in *.
          destruct (IH s1 Hl1 Hwf1) as
            (err & s' & ins & k & HR & Hl' & Hwf' & Hin' & Hpre & Hdom'
               & Hiff & Ht' & Hk).
          exists err, s', (entries ++ ins), (k1 + k). rewrite HR.
          split; [done|]. split; [done|]. split; [done|].
          split; [by rewrite Hin'|]. split; [by apply prefix_app|].
          split; [rewrite Hdom', Hdom1, fmap_app, list_to_set_app_L;
                  set_solver|].
          split; [|split].
          -- rewrite Hiff, (Hex True), clash_app, Hdom1.
             assert (¬ clash (dom (activeHosts (hdb s))) entries) as Hno.
             { intros Hc. apply Hiff1 in Hc. by destruct Hc. }
             tauto.
          -- rewrite Ht', Ht1, app_assoc. f_equal.
             by rewrite Nat.add_comm, replicate_add, join_app.
          -- rewrite length_app. lia.
      + exists (Some e), s, [], 0.
        split; [done|]. split; [done|]. split; [done|]. split; [done|].
        split; [apply prefix_nil|]. split; [simpl; set_solver|].
        split; [split; [|by eauto]|].
        { intros _. left. exists b. split; [left|by exists e]. }
        split; [done|simpl; lia].
Qed.

  (** The loop over the rewound blocks, started with the lock held: the
      state stays as it is, and the loop ends as [rewind_plan] says; at the
      first announcement [Remove] waits for the lock its caller holds. *)
Lemma rewindBlocks_held height blocks s :
    dbLock (hdb s) = WLocked →
    rewindBlocks scan height blocks s =
      match rewind_plan scan height blocks with
      | Some err => Ret err s
      | None => Blocked s
      end.
Proof.
    intros Hl. induction blocks as [|b rest IH]; [done|].
    cbn [rewindBlocks rewind_plan].
    destruct (scan height b) as [[|e entries]|e]; [|
      |done].
    - exact IH.
    - cbn [removeEntries]. unfold bind.
      rewrite Remove_held; [done|]. by rewrite Hl.
Qed.

Lemma rewind_plan_quiet height blocks :
    (∀ b entries, b ∈ blocks → scan height b = Ok entries → entries = []) →
    ∃ err, rewind_plan scan height blocks = Some err ∧
      (is_Some err ↔ ∃ b, b ∈ blocks ∧ scan_fails scan height b).
Proof.
    induction blocks as [|b rest IH]; intros Hq.
    - exists None. split; [done|]. split; [by intros [? ?]|].
      intros (b & Hb & _). by apply elem_of_nil in Hb.
    - simpl. destruct (scan height b) as [entries|e] eqn:Hscan.
      + rewrite (Hq b entries) by (done || left).
        destruct IH as (err & -> & Hiff);
          [intros b' es Hb'; apply Hq; by right|].
        exists err. split; [done|]. rewrite Hiff. split.
        * intros (b' & Hb' & Hf). exists b'. split; [by right|done].
        * intros (b' & [->|Hb']%elem_of_cons & Hf); [|by eauto].
          destruct Hf as [e Hf]. congruence.
      + exists (Some e). split; [done|]. split; [|by eauto].
        intros _. exists b. split; [left|by exists e].
Qed.
End UpdateProofs.

Section UpdateClaims.
Context {Block : Type}.
Variable scan : Z → Block → result (list HostEntry).

  (** [Update] on a free lock: the lock is taken, the rewound blocks are
      gone through, and then either the call waits inside [Remove], or ends
      with a scanner error, or goes on to the applied blocks. *)
Lemma Update_unlocked height rewound applied s :
    dbLock (hdb s) = Unlocked →
    Update scan height rewound applied s =
      match rewind_plan scan height rewound with
      | None => Blocked (set_dbLock WLocked EvLock s)
      | Some (Some e) => Ret (Some e) (touch s)
      | Some None =>
          defer unlock (applyBlocks scan height applied)
            (set_dbLock WLocked EvLock s)
      end.
Proof.
    intros Hl. unfold Update. unfold bind at 1. unfold lock at 1. rewrite Hl.
    unfold defer, bind. rewrite rewindBlocks_held by done.
    by destruct (rewind_plan scan height rewound) as [[e|]|].
Qed.

Lemma no_inactive_removeEntries entries :
    preserves no_inactive (removeEntries entries).
Proof.
    induction entries as [|e rest IH]; [apply preserves_ret|].
    apply preserves_bind; [apply no_inactive_Remove|].
    intros [err|]; [apply preserves_ret|apply IH].
Qed.

Lemma no_inactive_insertEntries entries :
    preserves no_inactive (insertEntries entries).
Proof.
    induction entries as [|e rest IH]; [apply preserves_ret|].
    apply preserves_bind; [apply preserves_unlock, no_inactive_lock|intros _].
    apply preserves_bind; [apply no_inactive_Insert|intros err].
    apply preserves_bind; [apply preserves_lock, no_inactive_lock|intros _].
    destruct err; [apply preserves_ret|apply IH].
Qed.

Lemma no_inactive_Update height rewound applied :
    preserves no_inactive (Update scan height rewound applied).
Proof.
    apply preserves_bind; [apply preserves_lock, no_inactive_lock|intros _].
    apply preserves_defer; [apply preserves_unlock, no_inactive_lock|].
    apply preserves_bind.
    - induction rewound as [|b rest IH]; [apply preserves_ret|].
      cbn [rewindBlocks]. destruct (scan height b); [|apply preserves_ret].
      apply preserves_bind; [apply no_inactive_removeEntries|].
      intros [err|]; [apply preserves_ret|apply IH].
    - intros [err|]; [apply preserves_ret|].
      induction applied as [|b rest IH]; [apply preserves_ret|].
      cbn [applyBlocks]. destruct (scan height b); [|apply preserves_ret].
      apply preserves_bind; [apply no_inactive_insertEntries|].
      intros [err|]; [apply preserves_ret|apply IH].
Qed.

Lemma no_inactive_run ops s :
    no_inactive s → no_inactive (run scan ops s).
Proof.
    revert s. induction ops as [|o ops IH]; intros s Hs; [done|].
    apply IH. destruct o; simpl.
    - by apply no_inactive_Insert.
    - by apply no_inactive_Remove.
    - by apply no_inactive_Update.
Qed.

  (** C3: after every sequence of [Insert], [Remove] and [Update] calls on
      a container built by [New], whatever the block scanner, the key sets
      of the active and of the inactive index are disjoint. *)
Theorem active_inactive_disjoint (ops : list (Op (Block := Block))) :
    dom (activeHosts (hdb (run scan ops init))) ##
    dom (inactiveHosts (hdb (run scan ops init))).
Proof.
    assert (no_inactive (run scan ops init)) as H
      by (by apply no_inactive_run).
    unfold no_inactive in H. rewrite H, dom_empty_L. set_solver.
Qed.


End UpdateClaims.





(** C6, the code at the reorg of the spec: blocks P1 (announcing X) and P2
    (announcing Y) have been applied, both hosts are active and the lock is
    free.  [Update] with P2 as the only rewound block takes the lock and
    then waits for it in [Remove]: the call never returns, and Y is still in
    the active index, next to X. *)
Theorem Update_rewind_waits :
  activeHosts (hdb stateP2) !! "X" = Some 0 ∧
  activeHosts (hdb stateP2) !! "Y" = Some 1 ∧
  dbLock (hdb stateP2) = Unlocked ∧
  Update scanned 0 [blockP2] [] stateP2
    = Blocked (set_dbLock WLocked EvLock stateP2) ∧
  activeHosts (hdb (set_dbLock WLocked EvLock stateP2)) !! "Y" = Some 1.
Proof.
  assert (dbLock (hdb stateP2) = Unlocked) as Hl by (by vm_compute).
  split; [by vm_compute|]. split; [by vm_compute|]. split; [done|].
  split; [|by vm_compute]. by rewrite Update_unlocked.
Qed.

(** ** The weighted lookup on three hosts *)

Lemma stateABC_heap :
  heap stateABC =
    [mkNode None 100 (Some 1) (Some 2) hostA;
     mkNode (Some 0) 30 None None hostB;
     mkNode (Some 0) 60 None None hostC] ∧
  hostTree (hdb stateABC) = Some 0.
Proof. split; by vm_compute. Qed.

(** C9 (as the modelled tree has it): after [Insert] of A (weight 10), B
    (weight 30) and C (weight 60) in this order, A is the root with B to its
    left and C to its right, and the lookup cuts the range of the total
    weight 100 into B's interval from 0 to 30, A's from 30 to 40 and C's
    from 40 to 100. *)
Theorem entryAtWeight_ABC (w : Z) :
  ((0 ≤ w < 30)%Z → rootEntryAtWeight stateABC w = Ok hostB) ∧
  ((30 ≤ w < 40)%Z → rootEntryAtWeight stateABC w = Ok hostA) ∧
  ((40 ≤ w < 100)%Z → rootEntryAtWeight stateABC w = Ok hostC).
Proof.
  unfold rootEntryAtWeight. destruct stateABC_heap as [-> ->].
  split_and!; intros Hw; simpl; unfold ownWeight; simpl;
    repeat (case_decide; simpl; try lia; try done).
Qed.

Lemma entryAtWeight_ABC_witness :
  rootEntryAtWeight stateABC 5 = Ok hostB ∧
  rootEntryAtWeight stateABC 15 = Ok hostB ∧
  rootEntryAtWeight stateABC 35 = Ok hostA ∧
  rootEntryAtWeight stateABC 50 = Ok hostC ∧
  rootEntryAtWeight stateABC 99 = Ok hostC.
Proof.
  split_and!.
  - apply (entryAtWeight_ABC 5). lia.
  - apply (entryAtWeight_ABC 15). lia.
  - apply (entryAtWeight_ABC 35). lia.
  - apply (entryAtWeight_ABC 50). lia.
  - apply (entryAtWeight_ABC 99). lia.
Defined.

(** C9, refuted as stated: at weight 5 the lookup finds B, not A. *)
Lemma entryAtWeight_5_is_not_A :
  rootEntryAtWeight stateABC 5 = Ok hostB ∧
  ¬ (rootEntryAtWeight stateABC 5 = Ok hostA ∧
     rootEntryAtWeight stateABC 15 = Ok hostB ∧
     rootEntryAtWeight stateABC 50 = Ok hostC ∧
     rootEntryAtWeight stateABC 99 = Ok hostC).
Proof.
  split; [by vm_compute|]. intros [H _]. vm_compute in H. discriminate H.
Qed.

(** The four lookups of the spec are those of the insertion order B, A, C,
    which puts B at the root with A to its left. *)
Lemma entryAtWeight_BAC :
  rootEntryAtWeight stateBAC 5 = Ok hostA ∧
  rootEntryAtWeight stateBAC 15 = Ok hostB ∧
  rootEntryAtWeight stateBAC 50 = Ok hostC ∧
  rootEntryAtWeight stateBAC 99 = Ok hostC.
Proof. split_and!; by vm_compute. Qed.

(** Through the sampler: a draw of 5 on the three hosts returns B. *)
Lemma RandomHost_ABC_5 :
  ∃ s', RandomHost (λ _, Ok 5%Z) stateABC = Ret (Ok hostB) s'.
Proof. eexists. by vm_compute. Qed.

(** ** The weight invariant of the tree *)

Lemma linked_erase h h' : erase h = erase h' → linked h → linked h'.
Proof.
  intros E Hl p n' sd c Hn' Hc.
  destruct (erase_lookup _ _ _ _ E Hn') as (n & Hn & _ & Hlc & Hrc & _).
  rewrite <- (child_eq sd n n' Hlc Hrc) in Hc.
  destruct (Hl p n sd c Hn Hc) as (m & Hm & Hp).
  destruct (erase_lookup h' h c m (eq_sym E) Hm) as (m' & Hm' & Hp' & _).
  exists m'. split; [done|]. by rewrite Hp'.
Qed.

Lemma distinct_children_erase h h' :
  erase h = erase h' → distinct_children h → distinct_children h'.
Proof.
  intros E Hd a n' c Hn' Hc.
  destruct (erase_lookup _ _ _ _ E Hn') as (n & Hn & _ & Hlc & Hrc & _).
  rewrite <- Hrc. apply (Hd a n c Hn). by rewrite Hlc.
Qed.

Lemma root_ok_erase h h' root :
  erase h = erase h' → root_ok h root → root_ok h' root.
Proof.
  intros E Hr r Hroot. destruct (Hr r Hroot) as (n & Hn & Hp).
  destruct (erase_lookup h' h r n (eq_sym E) Hn) as (n' & Hn' & Hp' & _).
  exists n'. split; [done|]. by rewrite Hp'.
Qed.

Lemma in_tree_erase h h' root a :
  erase h = erase h' → in_tree h root a → in_tree h' root a.
Proof.
  intros E. induction 1 as [r Hr [n Hn]|p n sd c _ IH Hn Hc].
  - apply in_tree_root; [done|].
    destruct (erase_lookup h' h r n (eq_sym E) Hn) as (n' & Hn' & _). eauto.
  - destruct (erase_lookup h' h p n (eq_sym E) Hn) as (n' & Hn' & _ & Hl & Hr & _).
    eapply in_tree_child; [exact IH|exact Hn'|].
    by rewrite (child_eq sd n' n Hl Hr).
Qed.

Lemma in_tree_allocated h root a :
  linked h → in_tree h root a → is_Some (h !! a).
Proof.
  intros Hl. destruct 1 as [r _ Hr|p n sd c _ Hn Hc]; [done|].
  destruct (Hl p n sd c Hn Hc) as (m & Hm & _). eauto.
Qed.

(** A node of the tree without a parent is the root; a node with a parent
    hangs below it, and the parent is in the tree. *)
Lemma in_tree_parent h root a n :
  linked h → root_ok h root → in_tree h root a → h !! a = Some n →
  match parent n with
  | None => root = Some a
  | Some p =>
      in_tree h root p ∧ ∃ k sd, h !! p = Some k ∧ child sd k = Some a
  end.
Proof.
  intros Hl Hr Hin Hn. destruct Hin as [r Hroot _|p k sd c Hp Hk Hc].
  - destruct (Hr r Hroot) as (n' & Hn' & Hp). simplify_eq. by rewrite Hp.
  - destruct (Hl p k sd c Hk Hc) as (m & Hm & Hpm). simplify_eq.
    rewrite Hpm. eauto.
Qed.

Lemma subtreeWeight_insert_weight h a n w o :
  h !! a = Some n →
  subtreeWeight (<[a := set_weight w n]> h) o =
    if decide (o = Some a) then w else subtreeWeight h o.
Proof.
  intros Hn. destruct o as [b|]; [|by rewrite decide_False].
  simpl. destruct (decide (a = b)) as [->|Hne].
  - rewrite list_lookup_insert_eq by eauto using lookup_lt_Some.
    by rewrite decide_True.
  - rewrite list_lookup_insert_ne by done.
    rewrite decide_False; [done|congruence].
Qed.

(** The heart of the invariant: when I1 holds everywhere but at the node
    [a] of the tree, where the cached weight is short by [delta], then
    [propagate] from [a] restores I1 everywhere, changes no link and no
    entry, and moves the weight at the root by [delta]. *)
Lemma propagate_repairs fuel h root a delta :
  ordered h → linked h → distinct_children h → root_ok h root →
  in_tree h root a → a < fuel →
  (∀ x n, h !! x = Some n → x ≠ a → weight_ok h n) →
  (∀ n, h !! a = Some n →
     (weight n + delta =
        ownWeight n + subtreeWeight h (lchild n) + subtreeWeight h (rchild n))%Z) →
  ∃ h', propagate fuel h (Some a) delta = Some h' ∧ erase h' = erase h ∧
    weights_ok h' ∧
    subtreeWeight h' root = (subtreeWeight h root + delta)%Z.
Proof.
  revert h a. induction fuel as [|fuel IH];
    intros h a Ho Hl Hd Hr Hin Hf Hothers Hat; [lia|].
  destruct (in_tree_allocated h root a Hl Hin) as [n Hn].
  cbn [propagate]. rewrite Hn. simpl.
  set (h1 := <[a := set_weight (weight n + delta) n]> h).
  assert (E1 : erase h1 = erase h) by (by apply erase_insert_weight).
  assert (Hsw : ∀ o, subtreeWeight h1 o =
    if decide (o = Some a) then (weight n + delta)%Z else subtreeWeight h o)
    by (intros o; by apply subtreeWeight_insert_weight).
  assert (Hkids : ∀ sd, subtreeWeight h1 (child sd n) = subtreeWeight h (child sd n)).
  { intros sd. rewrite Hsw. case_decide as Hc; [|done].
    destruct (Ho a n Hn) as [_ H2]. specialize (H2 sd a Hc). lia. }
  assert (Ha1 : weight_ok h1 (set_weight (weight n + delta) n)).
  { pose proof (Hkids SLeft) as HL. pose proof (Hkids SRight) as HR.
    simpl in HL, HR. unfold weight_ok. simpl. rewrite HL, HR.
    exact (Hat n Hn). }
  assert (Hfar : ∀ x k, h !! x = Some k → x ≠ a →
    (∀ sd, child sd k ≠ Some a) → weight_ok h1 k).
  { intros x k Hk Hxa Hnc. unfold weight_ok.
    rewrite !Hsw, !decide_False; [by apply (Hothers x)|apply (Hnc SRight)|apply (Hnc SLeft)]. }
  pose proof (in_tree_parent h root a n Hl Hr Hin Hn) as Hpar.
  destruct (parent n) as [p|] eqn:Hp.
  - destruct Hpar as (Hinp & k & sd & Hk & Hc).
    assert (p < a) as Hpa by (destruct (Ho a n Hn) as [H1 _]; by apply H1).
    assert (Hk1 : h1 !! p = Some k).
    { unfold h1. rewrite list_lookup_insert_ne by lia. done. }
    destruct (IH h1 p) as (h' & Hh' & E' & Hw' & Hroot').
    + by apply (ordered_erase h).
    + by apply (linked_erase h).
    + by apply (distinct_children_erase h).
    + by apply (root_ok_erase h).
    + by apply (in_tree_erase h).
    + lia.
    + intros x m Hm Hxp. destruct (decide (x = a)) as [->|Hxa].
      * unfold h1 in Hm.
        rewrite list_lookup_insert_eq in Hm by eauto using lookup_lt_Some.
        by simplify_eq.
      * unfold h1 in Hm. rewrite list_lookup_insert_ne in Hm by done.
        apply (Hfar x m Hm Hxa). intros sd' Hc'.
        destruct (Hl x m sd' a Hm Hc') as (n' & Hn' & Hpn'). simplify_eq.
    + intros m Hm. assert (m = k) as -> by congruence.
      assert (weight_ok h k) as Hwk by (apply (Hothers p); [done|lia]).
      unfold weight_ok in Hwk. rewrite !Hsw.
      destruct sd; simpl in Hc.
      * rewrite Hc, (decide_True _ _ eq_refl).
        rewrite decide_False by (by apply (Hd p k a Hk Hc)).
        rewrite Hc in Hwk. simpl in Hwk. rewrite Hn in Hwk. simpl in Hwk. lia.
      * rewrite Hc, (decide_True _ _ eq_refl).
        rewrite decide_False by (intros Hlc; by apply (Hd p k a Hk Hlc)).
        rewrite Hc in Hwk. simpl in Hwk. rewrite Hn in Hwk. simpl in Hwk. lia.
    + exists h'. split; [done|]. split; [by rewrite E'|]. split; [done|].
      rewrite Hroot', Hsw, decide_False; [done|].
      intros Hroot. destruct (Hr a Hroot) as (n' & Hn' & Hpn'). simplify_eq.
  - exists h1. split; [by destruct fuel|]. split; [done|]. split.
    + intros x m Hm. destruct (decide (x = a)) as [->|Hxa].
      * unfold h1 in Hm.
        rewrite list_lookup_insert_eq in Hm by eauto using lookup_lt_Some.
        by simplify_eq.
      * unfold h1 in Hm. rewrite list_lookup_insert_ne in Hm by done.
        apply (Hfar x m Hm Hxa). intros sd' Hc'.
        destruct (Hl x m sd' a Hm Hc') as (n' & Hn' & Hpn'). simplify_eq.
    + rewrite Hpar, Hsw, decide_True by done. simpl. by rewrite Hn.
Qed.

Lemma findSlot_in_tree fuel h root a b sd :
  in_tree h root a → findSlot fuel h a = Some (b, sd) → in_tree h root b.
Proof.
  revert a. induction fuel as [|fuel IH]; intros a Hin Hf; [done|].
  cbn [findSlot] in Hf. destruct (h !! a) as [n|] eqn:Hn; [|done].
  simpl in Hf. destruct (child (lighter h n) n) as [c|] eqn:Hc.
  - apply (IH c); [|done]. by eapply in_tree_child.
  - by simplify_eq.
Qed.

(** Hanging a new leaf below a node of the tree that has the slot free. *)
Section Attach.
Variables (h : list hostNode) (root : addr) (a : addr) (sd : side)
    (n : hostNode) (entry : HostEntry).
Hypothesis Hok : heap_ok h (Some root).
Hypothesis Hin : in_tree h (Some root) a.
Hypothesis Hn : h !! a = Some n.
Hypothesis Hfree : child sd n = None.

Local Notation leaf := (newLeaf a entry).
Local Notation h2 := (attachLeaf h a sd n entry).

Lemma attach_lookup x k :
    h2 !! x = Some k ↔
      (x = a ∧ k = set_child sd (Some (length h)) n) ∨
      (x = length h ∧ k = leaf) ∨
      (x ≠ a ∧ h !! x = Some k).
Proof using All.
    pose proof (lookup_lt_Some _ _ _ Hn) as Ha. unfold attachLeaf.
    destruct (decide (x = a)) as [->|Hxa].
    - rewrite list_lookup_insert_eq by (rewrite length_app; lia).
      split; [intros [= <-]; by left|].
      intros [[_ ->]|[[-> _]|[? _]]]; [done|lia|done].
    - rewrite list_lookup_insert_ne by done. rewrite lookup_snoc_Some.
      split.
      + intros [[_ H]|[-> <-]]; [right; right; done|right; left; done].
      + intros [[? _]|[[-> ->]|[_ H]]]; [done|by right|left].
        split; [eauto using lookup_lt_Some|done].
Qed.

Lemma attach_child sd' :
    child sd' (set_child sd (Some (length h)) n) =
      if decide (sd' = sd) then Some (length h) else child sd' n.
Proof using All. by destruct sd, sd'. Qed.

Lemma attach_length : length h2 = S (length h).
Proof using All.
    unfold attachLeaf. rewrite length_insert, length_app. simpl. lia.
Qed.

Lemma attach_old x k :
    h !! x = Some k →
    ∃ k', h2 !! x = Some k' ∧ parent k' = parent k ∧ weight k' = weight k ∧
          hostEntry k' = hostEntry k.
Proof using All.
    intros Hk. destruct (decide (x = a)) as [->|Hxa].
    - exists (set_child sd (Some (length h)) n). simplify_eq.
      split; [apply attach_lookup; by left|]. by destruct sd.
    - exists k. split; [apply attach_lookup; right; right; done|done].
Qed.

Lemma attach_subtreeWeight o :
    (∀ c, o = Some c → c < length h) →
    subtreeWeight h2 o = subtreeWeight h o.
Proof using All.
    intros Hb. destruct o as [c|]; [|done]. specialize (Hb c eq_refl). simpl.
    destruct (lookup_lt_is_Some_2 h c Hb) as [k Hk].
    destruct (attach_old c k Hk) as (k' & -> & _ & Hw & _).
    rewrite Hk. simpl. done.
Qed.

Lemma attach_ordered : ordered h2.
Proof using All.
    destruct Hok as (Ho & _). intros x k Hk. rewrite attach_length.
    apply attach_lookup in Hk as [[-> ->]|[[-> ->]|[Hxa Hk]]].
    - destruct (Ho a n Hn) as [H1 H2]. split.
      + intros p Hp. apply H1. by destruct sd.
      + intros sd' c. rewrite attach_child. case_decide.
        * intros [= <-]. pose proof (lookup_lt_Some _ _ _ Hn). lia.
        * intros Hc. specialize (H2 _ _ Hc). lia.
    - split; [|by intros []]. intros p [= <-].
      eauto using lookup_lt_Some.
    - destruct (Ho x k Hk) as [H1 H2]. split; [done|].
      intros sd' c Hc. specialize (H2 _ _ Hc). lia.
Qed.

Lemma attach_linked : linked h2.
Proof using All.
    destruct Hok as (Ho & Hl & _). intros p k sd' c Hk Hc.
    apply attach_lookup in Hk as [[-> ->]|[[-> ->]|[Hxa Hk]]].
    - rewrite attach_child in Hc. case_decide.
      + simplify_eq. exists leaf. split; [|done].
        apply attach_lookup. right; left. done.
      + destruct (Hl a n sd' c Hn Hc) as (m & Hm & Hp).
        destruct (attach_old c m Hm) as (m' & Hm' & Hp' & _).
        exists m'. split; [done|]. by rewrite Hp'.
    - by destruct sd'.
    - destruct (Hl p k sd' c Hk Hc) as (m & Hm & Hp).
      destruct (attach_old c m Hm) as (m' & Hm' & Hp' & _).
      exists m'. split; [done|]. by rewrite Hp'.
Qed.

Lemma attach_distinct : distinct_children h2.
Proof using All.
    destruct Hok as (Ho & _ & Hd & _). intros x k c Hk Hc.
    apply attach_lookup in Hk as [[-> ->]|[[-> ->]|[Hxa Hk]]].
    - destruct (Ho a n Hn) as [_ H2]. destruct sd; simpl in *.
      + simplify_eq. intros Hr. specialize (H2 SRight _ Hr). lia.
      + intros [= <-]. specialize (H2 SLeft _ Hc). lia.
    - done.
    - by apply (Hd x k c).
Qed.

Lemma attach_root_ok : root_ok h2 (Some root).
Proof using All.
    destruct Hok as (_ & _ & _ & Hr & _). intros r Hroot.
    destruct (Hr r Hroot) as (k & Hk & Hp).
    destruct (attach_old r k Hk) as (k' & Hk' & Hp' & _).
    exists k'. split; [done|]. by rewrite Hp'.
Qed.

Lemma attach_in_tree x : in_tree h (Some root) x → in_tree h2 (Some root) x.
Proof using All.
    induction 1 as [r Hr [k Hk]|p k sd' c _ IH Hk Hc].
    - apply in_tree_root; [done|].
      destruct (attach_old r k Hk) as (k' & Hk' & _). eauto.
    - destruct (decide (p = a)) as [->|Hpa].
      + simplify_eq. eapply in_tree_child; [exact IH| |].
        * apply attach_lookup. by left.
        * rewrite attach_child. case_decide; [|done]. congruence.
      + eapply in_tree_child; [exact IH| |exact Hc].
        apply attach_lookup. right; right. done.
Qed.

Lemma attach_in_tree_new : in_tree h2 (Some root) (length h).
Proof using All.
    eapply in_tree_child; [apply attach_in_tree, Hin| |].
    - apply attach_lookup. by left.
    - rewrite attach_child. by rewrite decide_True.
Qed.

Lemma attach_weights_others x k :
    h2 !! x = Some k → x ≠ a → weight_ok h2 k.
Proof using All.
    destruct Hok as (Ho & _ & _ & _ & Hw). intros Hk Hxa.
    apply attach_lookup in Hk as [[-> _]|[[-> ->]|[_ Hk]]]; [done| |].
    - unfold weight_ok. simpl. unfold ownWeight. simpl. lia.
    - unfold weight_ok. destruct (Ho x k Hk) as [_ H2].
      rewrite !attach_subtreeWeight.
      + by apply (Hw x).
      + intros c Hc. specialize (H2 SRight c Hc). lia.
      + intros c Hc. specialize (H2 SLeft c Hc). lia.
Qed.

Lemma attach_weight_at k :
    h2 !! a = Some k →
    (weight k + Weight entry =
       ownWeight k + subtreeWeight h2 (lchild k) + subtreeWeight h2 (rchild k))%Z.
Proof using All.
    destruct Hok as (Ho & _ & _ & _ & Hw).
    intros Hk. apply attach_lookup in Hk as [[_ ->]|[[Hlen _]|[? _]]];
      [| |done].
    - pose proof (Hw a n Hn) as Hwn. unfold weight_ok in Hwn.
      destruct (Ho a n Hn) as [_ H2].
      assert (subtreeWeight h2 (Some (length h)) = Weight entry) as Hnew.
      { simpl. replace (h2 !! length h) with (Some leaf); [done|].
        symmetry. apply attach_lookup. right; left. done. }
      assert (subtreeWeight h2 (lchild n) = subtreeWeight h (lchild n)) as HL.
      { apply attach_subtreeWeight. intros c Hc.
        specialize (H2 SLeft c Hc). lia. }
      assert (subtreeWeight h2 (rchild n) = subtreeWeight h (rchild n)) as HR.
      { apply attach_subtreeWeight. intros c Hc.
        specialize (H2 SRight c Hc). lia. }
      simpl in Hnew. unfold ownWeight in *. clear H2.
      destruct sd; simpl in Hfree |- *; rewrite Hfree in Hwn; simpl in Hwn;
        rewrite Hnew, ?HL, ?HR; lia.
    - pose proof (lookup_lt_Some _ _ _ Hn). lia.
Qed.
End Attach.

(** The tree's [insert] on a consistent heap: it returns the new leaf,
    which is in the tree, keeps the heap consistent and every other node in
    the tree, and adds the weight of the entry at the root. *)
Lemma insert_heap_ok root entry h :
  heap_ok h (Some root) →
  ∃ h', insert root entry h = Some (h', (Weight entry, length h)) ∧
    heap_ok h' (Some root) ∧ length h' = S (length h) ∧
    subtreeWeight h' (Some root) =
      (subtreeWeight h (Some root) + Weight entry)%Z ∧
    (∀ x, in_tree h (Some root) x → in_tree h' (Some root) x) ∧
    in_tree h' (Some root) (length h) ∧
    (∃ n, h' !! length h = Some n ∧ hostEntry n = entry) ∧
    (∀ x n, h !! x = Some n →
       ∃ n', h' !! x = Some n' ∧ hostEntry n' = hostEntry n).
Proof.
  intros Hok. pose proof Hok as (Ho & Hl & Hd & Hr & Hw).
  destruct (Hr root eq_refl) as (nr & Hnr & Hpr).
  pose proof (lookup_lt_Some _ _ _ Hnr) as Hroot.
  assert (in_tree h (Some root) root) as Hinr
    by (apply in_tree_root; eauto).
  unfold insert.
  destruct (findSlot_total (length h) h root) as (a & sd & n & Hfs & _ & Hn & Hc);
    [done|lia|lia|].
  pose proof (findSlot_in_tree _ _ _ _ _ _ Hinr Hfs) as Hin.
  rewrite Hfs. simpl. rewrite Hn. simpl.
  change (<[a := set_child sd (Some (length h)) n]>
            (h ++ [mkNode (Some a) (Weight entry) None None entry]))
    with (attachLeaf h a sd n entry).
  set (leaf := newLeaf a entry).
  set (h2 := attachLeaf h a sd n entry).
  pose proof (lookup_lt_Some _ _ _ Hn) as Ha.
  pose proof (attach_length h root a sd n entry Hok Hin Hn Hc) as Hlen2.
  pose proof (attach_ordered h root a sd n entry Hok Hin Hn Hc) as Ho2.
  pose proof (attach_linked h root a sd n entry Hok Hin Hn Hc) as Hl2.
  pose proof (attach_distinct h root a sd n entry Hok Hin Hn Hc) as Hd2.
  pose proof (attach_root_ok h root a sd n entry Hok Hin Hn Hc) as Hr2.
  pose proof (attach_in_tree h root a sd n entry Hok Hin Hn Hc) as Hin2.
  pose proof (attach_in_tree_new h root a sd n entry Hok Hin Hn Hc) as Hnew2.
  pose proof (attach_old h root a sd n entry Hok Hin Hn Hc) as Hold2.
  pose proof (attach_lookup h root a sd n entry Hok Hin Hn Hc) as Hlk2.
  pose proof (attach_subtreeWeight h root a sd n entry Hok Hin Hn Hc) as Hsw2.
  pose proof (attach_weights_others h root a sd n entry Hok Hin Hn Hc) as Hwo2.
  pose proof (attach_weight_at h root a sd n entry Hok Hin Hn Hc) as Hwa2.
  fold leaf in Hlk2. fold h2 in Hlen2, Ho2, Hl2, Hd2, Hr2, Hin2, Hnew2,
    Hold2, Hlk2, Hsw2, Hwo2, Hwa2.
  destruct (propagate_repairs (length h2) h2 (Some root) a (Weight entry))
    as (h3 & Hh3 & E & Hw3 & Hroot3); [done|done|done|done|by apply Hin2|lia|
      done|done|].
  exists h3. split; [by rewrite Hh3|].
  split; [|split; [|split; [|split; [|split; [|split]]]]].
  - split; [|split; [|split; [|split]]].
    + by apply (ordered_erase h2).
    + by apply (linked_erase h2).
    + by apply (distinct_children_erase h2).
    + by apply (root_ok_erase h2).
    + done.
  - rewrite <- Hlen2. by apply erase_length.
  - simpl in Hroot3. rewrite Hroot3. f_equal.
    apply (Hsw2 (Some root)). intros c [= <-]. done.
  - intros x Hx. apply (in_tree_erase h2); [done|]. by apply Hin2.
  - by apply (in_tree_erase h2).
  - assert (h2 !! length h = Some leaf) as Hleaf
      by (apply Hlk2; right; left; done).
    destruct (erase_lookup h3 h2 _ _ E Hleaf) as (n3 & Hn3 & _ & _ & _ & He).
    exists n3. split; [done|]. by rewrite He.
  - intros x k Hk.
    destruct (Hold2 x k Hk) as (k2 & Hk2 & _ & _ & He2).
    destruct (erase_lookup h3 h2 _ _ E Hk2) as (k3 & Hk3 & _ & _ & _ & He3).
    exists k3. split; [done|]. by rewrite He3.
Qed.

Lemma detach_child a k sd c :
  (∀ c', lchild k = Some c' → rchild k ≠ Some c') →
  child sd (detach a k) = Some c ↔ child sd k = Some c ∧ c ≠ a.
Proof.
  intros Hd. unfold detach. destruct sd; simpl.
  - case_decide as Hl; simpl.
    + split; [done|]. intros [? ?]. congruence.
    + case_decide as Hr; simpl; (split; [|tauto]); intros H;
        (split; [done|congruence]).
  - case_decide as Hl; simpl.
    + split; [|tauto]. intros H. split; [done|]. intros ->.
      by apply (Hd a).
    + case_decide as Hr; simpl.
      * split; [done|]. intros [? ?]. congruence.
      * split; [|tauto]. intros H. split; [done|congruence].
Qed.

Lemma detach_fields a k :
  parent (detach a k) = parent k ∧ weight (detach a k) = weight k ∧
  hostEntry (detach a k) = hostEntry k.
Proof. unfold detach. by repeat case_decide. Qed.

(** Cutting a childless node off its parent. *)
Section Detach.
Variables (h : list hostNode) (root : option addr) (a p : addr)
    (n k : hostNode) (sd : side).
Hypothesis Hok : heap_ok h root.
Hypothesis Hn : h !! a = Some n.
Hypothesis Hleaf : ∀ sd', child sd' n = None.
Hypothesis Hp : parent n = Some p.
Hypothesis Hk : h !! p = Some k.
Hypothesis Hc : child sd k = Some a.
Hypothesis Hinp : in_tree h root p.

Local Notation h1 := (detachLeaf h p a k).

Lemma detach_lookup x m :
    h1 !! x = Some m ↔ (x = p ∧ m = detach a k) ∨ (x ≠ p ∧ h !! x = Some m).
Proof using All.
    unfold detachLeaf. destruct (decide (x = p)) as [->|Hxp].
    - rewrite list_lookup_insert_eq by eauto using lookup_lt_Some.
      split; [intros [= <-]; by left|]. intros [[_ ->]|[? _]]; done.
    - rewrite list_lookup_insert_ne by done.
      split; [by right|]. intros [[? _]|[_ ?]]; done.
Qed.

Lemma detach_kids sd' c :
    child sd' (detach a k) = Some c ↔ child sd' k = Some c ∧ c ≠ a.
Proof using All.
    apply detach_child. intros c'. destruct Hok as (_ & _ & Hd & _).
    by apply (Hd p k).
Qed.

Lemma detach_old x m :
    h !! x = Some m →
    ∃ m', h1 !! x = Some m' ∧ parent m' = parent m ∧ weight m' = weight m ∧
          hostEntry m' = hostEntry m.
Proof using All.
    intros Hm. destruct (decide (x = p)) as [->|Hxp].
    - exists (detach a k). split; [apply detach_lookup; by left|].
      assert (m = k) as -> by congruence. apply detach_fields.
    - exists m. split; [apply detach_lookup; by right|done].
Qed.

Lemma detach_subtreeWeight o : subtreeWeight h1 o = subtreeWeight h o.
Proof using All.
    destruct o as [c|]; [|done]. simpl.
    destruct (h !! c) as [m|] eqn:Hm.
    - destruct (detach_old c m Hm) as (m' & -> & _ & Hw & _). done.
    - replace (h1 !! c) with (@None hostNode); [done|]. symmetry.
      apply lookup_ge_None. unfold detachLeaf. rewrite length_insert.
      by apply lookup_ge_None.
Qed.

Lemma detach_ordered : ordered h1.
Proof using All.
    destruct Hok as (Ho & _). apply (ordered_insert h p k); [done|done| |].
    - apply detach_fields.
    - intros sd' c Hc'. by apply detach_kids in Hc' as [? _].
Qed.

Lemma detach_linked : linked h1.
Proof using All.
    destruct Hok as (Ho & Hl & _). intros x m sd' c Hm Hc'.
    assert (∃ m0, h !! x = Some m0 ∧ child sd' m0 = Some c) as (m0 & Hm0 & Hc0).
    { apply detach_lookup in Hm as [[-> ->]|[_ Hm]].
      - apply detach_kids in Hc' as [? _]. eauto.
      - eauto. }
    destruct (Hl x m0 sd' c Hm0 Hc0) as (mc & Hmc & Hpc).
    destruct (detach_old c mc Hmc) as (mc' & Hmc' & Hpc' & _).
    exists mc'. split; [done|]. by rewrite Hpc'.
Qed.

Lemma detach_distinct : distinct_children h1.
Proof using All.
    destruct Hok as (_ & _ & Hd & _). intros x m c Hm Hlc.
    apply detach_lookup in Hm as [[-> ->]|[_ Hm]]; [|by apply (Hd x m)].
    apply (detach_kids SLeft) in Hlc as [Hlc _]. intros Hrc.
    apply (detach_kids SRight) in Hrc as [Hrc _]. by apply (Hd p k c).
Qed.

Lemma detach_root_ok : root_ok h1 root.
Proof using All.
    destruct Hok as (_ & _ & _ & Hr & _). intros r Hroot.
    destruct (Hr r Hroot) as (m & Hm & Hpm).
    destruct (detach_old r m Hm) as (m' & Hm' & Hpm' & _).
    exists m'. split; [done|]. by rewrite Hpm'.
Qed.

Lemma detach_in_tree x : in_tree h root x → x ≠ a → in_tree h1 root x.
Proof using All.
    induction 1 as [r Hr [m Hm]|p0 m sd' c Hin0 IH Hm Hc']; intros Hxa.
    - apply in_tree_root; [done|].
      destruct (detach_old r m Hm) as (m' & Hm' & _). eauto.
    - assert (p0 ≠ a) as Hp0.
      { intros ->. assert (m = n) as -> by congruence.
        by rewrite Hleaf in Hc'. }
      destruct (decide (p0 = p)) as [->|Hne].
      + assert (m = k) as -> by congruence.
        eapply in_tree_child; [by apply IH|apply detach_lookup; by left|].
        by apply detach_kids.
      + eapply in_tree_child; [by apply IH| |exact Hc'].
        apply detach_lookup. by right.
Qed.

Lemma detach_weights_others x m :
    h1 !! x = Some m → x ≠ p → weight_ok h1 m.
Proof using All.
    destruct Hok as (_ & _ & _ & _ & Hw). intros Hm Hxp.
    apply detach_lookup in Hm as [[? _]|[_ Hm]]; [done|].
    unfold weight_ok. rewrite !detach_subtreeWeight. by apply (Hw x).
Qed.

Lemma detach_weight_at m :
    h1 !! p = Some m →
    (weight m + - ownWeight n =
       ownWeight m + subtreeWeight h1 (lchild m) + subtreeWeight h1 (rchild m))%Z.
Proof using All.
    destruct Hok as (_ & _ & Hd & _ & Hw). intros Hm.
    apply detach_lookup in Hm as [[_ ->]|[? _]]; [|done].
    pose proof (Hw p k Hk) as Hwk. pose proof (Hw a n Hn) as Hwn.
    unfold weight_ok in Hwk, Hwn.
    pose proof (Hleaf SLeft) as HnL. pose proof (Hleaf SRight) as HnR.
    simpl in HnL, HnR. rewrite HnL, HnR in Hwn. simpl in Hwn.
    rewrite !detach_subtreeWeight.
    destruct (detach_fields a k) as (_ & -> & He). unfold ownWeight in *.
    rewrite He. clear He.
    assert (subtreeWeight h (Some a) = weight n) as Hsa
      by (simpl; by rewrite Hn).
    pose proof (Hd p k a Hk) as Hdk. clear Hinp.
    unfold detach. destruct sd; simpl in Hc.
    - rewrite decide_True by done. simpl. rewrite Hc, Hsa in Hwk. lia.
    - rewrite decide_False by (intros Hl; by apply Hdk).
      rewrite decide_True by done. simpl. rewrite Hc, Hsa in Hwk. lia.
Qed.
End Detach.

Lemma propagate_None fuel h delta : propagate fuel h None delta = Some h.
Proof. by destruct fuel. Qed.

(** The tree's [remove] on a childless node of a consistent heap: the heap
    stays consistent, the other nodes stay in the tree with their entries,
    and below a parent the weight at the root goes down by the weight of
    the removed entry.  A childless root is left as it is. *)
Lemma remove_leaf_heap_ok h root a n :
  heap_ok h root → in_tree h root a → h !! a = Some n →
  lchild n = None → rchild n = None →
  ∃ h', remove (length h) a h = Some h' ∧ heap_ok h' root ∧
    length h' = length h ∧
    (∀ x k, h !! x = Some k →
       ∃ k', h' !! x = Some k' ∧ hostEntry k' = hostEntry k) ∧
    (∀ x, in_tree h root x → x ≠ a → in_tree h' root x) ∧
    match parent n with
    | None => h' = h
    | Some _ =>
        subtreeWeight h' root = (subtreeWeight h root - ownWeight n)%Z
    end.
Proof.
  intros Hok Hin Hn HnL HnR. pose proof Hok as (Ho & Hl & Hd & Hr & Hw).
  pose proof (lookup_lt_Some _ _ _ Hn) as Ha.
  destruct (length h) as [|fuel] eqn:Hlen; [lia|].
  cbn [remove]. rewrite Hn. simpl. rewrite HnL, HnR.
  pose proof (in_tree_parent h root a n Hl Hr Hin Hn) as Hpar.
  destruct (parent n) as [p|] eqn:Hp.
  - destruct Hpar as (Hinp & k & sd & Hk & Hc). rewrite Hk. simpl.
    assert (Hleaf : ∀ sd', child sd' n = None) by (by intros []).
    assert (p ≠ a) as Hpa.
    { destruct (Ho a n Hn) as [H1 _]. specialize (H1 p Hp). lia. }
    pose proof (detach_ordered h root a p n k sd Hok Hn Hleaf Hp Hk Hc Hinp) as Ho1.
    pose proof (detach_linked h root a p n k sd Hok Hn Hleaf Hp Hk Hc Hinp) as Hl1.
    pose proof (detach_distinct h root a p n k sd Hok Hn Hleaf Hp Hk Hc Hinp) as Hd1.
    pose proof (detach_root_ok h root a p n k sd Hok Hn Hleaf Hp Hk Hc Hinp) as Hr1.
    pose proof (detach_in_tree h root a p n k sd Hok Hn Hleaf Hp Hk Hc Hinp) as Hin1.
    pose proof (detach_old h root a p n k sd Hok Hn Hleaf Hp Hk Hc Hinp) as Hold1.
    pose proof (detach_subtreeWeight h root a p n k sd Hok Hn Hleaf Hp Hk Hc Hinp) as Hsw1.
    pose proof (detach_weights_others h root a p n k sd Hok Hn Hleaf Hp Hk Hc Hinp) as Hwo1.
    pose proof (detach_weight_at h root a p n k sd Hok Hn Hleaf Hp Hk Hc Hinp) as Hwa1.
    change (<[p := detach a k]> h) with (detachLeaf h p a k).
    set (h1 := detachLeaf h p a k) in *.
    destruct (propagate_repairs (length h1) h1 root p (- ownWeight n))
      as (h' & Hh' & E & Hw' & Hroot');
      [done|done|done|done|by apply Hin1| |done|done|].
    { unfold h1, detachLeaf. rewrite length_insert.
      eauto using lookup_lt_Some. }
    exists h'. split; [done|]. split; [|split; [|split; [|split]]].
    + split; [|split; [|split; [|split]]].
      * by apply (ordered_erase h1).
      * by apply (linked_erase h1).
      * by apply (distinct_children_erase h1).
      * by apply (root_ok_erase h1).
      * done.
    + rewrite (erase_length _ _ E). unfold h1, detachLeaf.
      by rewrite length_insert.
    + intros x m Hm. destruct (Hold1 x m Hm) as (m1 & Hm1 & _ & _ & He1).
      destruct (erase_lookup h' h1 _ _ E Hm1) as (m' & Hm' & _ & _ & _ & He').
      exists m'. split; [done|]. by rewrite He'.
    + intros x Hx Hxa. apply (in_tree_erase h1); [done|]. by apply Hin1.
    + rewrite Hroot', Hsw1. lia.
  - rewrite propagate_None. exists h. split; [done|]. split; [done|].
    split; [done|]. split; [eauto|]. split; [done|done].
Qed.

(** ** The invariants of the container over [Insert] and [Remove] *)

Lemma Zsum_perm l1 l2 : l1 ≡ₚ l2 → Zsum l1 = Zsum l2.
Proof.
  induction 1 as [|x l1 l2 _ IH|x y l|l1 l2 l3 _ IH1 _ IH2]; simpl; lia.
Qed.

Lemma in_tree_no_root h a : ¬ in_tree h None a.
Proof. induction 1; done. Qed.

Lemma tree_ok_init : tree_ok init.
Proof.
  split; [done|]. split; [|split].
  - split; [|split; [|split; [|split]]].
    + by intros [|?] ?.
    + by intros [|?] ?.
    + by intros [|?] ?.
    + intros ? [=].
    + by intros [|?] ?.
  - intros id a H. simpl in H. by rewrite lookup_empty in H.
  - intros id id' a H. simpl in H. by rewrite lookup_empty in H.
Qed.

Lemma tree_ok_touch s : tree_ok s → tree_ok (touch s).
Proof. intros (Hl & ?). rewrite touch_eq by done. by split. Qed.

Lemma conserved_touch s : conserved s → conserved (touch s).
Proof. done. Qed.

Lemma root_active_touch s : root_active s → root_active (touch s).
Proof. done. Qed.

(** The first node of a tree. *)
Lemma first_node_heap_ok h entry :
  ordered h → linked h → distinct_children h → weights_ok h →
  heap_ok (h ++ [mkNode None (Weight entry) None None entry])
    (Some (length h)).
Proof.
  intros Ho Hl Hd Hw.
  set (leaf := mkNode None (Weight entry) None None entry).
  assert (Hold : ∀ x k, h !! x = Some k → (h ++ [leaf]) !! x = Some k).
  { intros x k Hk. rewrite lookup_app_l; eauto using lookup_lt_Some. }
  assert (Hsw : ∀ x k sd, h !! x = Some k →
    subtreeWeight (h ++ [leaf]) (child sd k) = subtreeWeight h (child sd k)).
  { intros x k sd Hk. destruct (child sd k) as [c|] eqn:Hc; [|done]. simpl.
    destruct (Ho x k Hk) as [_ H2]. specialize (H2 sd c Hc).
    rewrite lookup_app_l by lia. done. }
  split; [|split; [|split; [|split]]].
  - intros x k Hk. unfold links_ok. rewrite length_app. simpl.
    apply lookup_snoc_Some in Hk as [[_ Hk]|[-> <-]].
    + destruct (Ho x k Hk) as [H1 H2]. split; [done|].
      intros sd c Hc. specialize (H2 sd c Hc). lia.
    + split; [done|]. by intros [].
  - intros x k sd c Hk Hc.
    apply lookup_snoc_Some in Hk as [[_ Hk]|[-> <-]]; [|by destruct sd].
    destruct (Hl x k sd c Hk Hc) as (m & Hm & Hp). eauto.
  - intros x k c Hk Hc.
    apply lookup_snoc_Some in Hk as [[_ Hk]|[-> <-]]; [|done].
    by apply (Hd x k).
  - intros r [= <-]. exists leaf. split; [|done].
    by apply list_lookup_middle.
  - intros x k Hk.
    apply lookup_snoc_Some in Hk as [[_ Hk]|[-> <-]].
    + unfold weight_ok. pose proof (Hsw x k SLeft Hk) as HL.
      pose proof (Hsw x k SRight Hk) as HR. simpl in HL, HR.
      rewrite HL, HR. by apply (Hw x).
    + unfold weight_ok, ownWeight. simpl. lia.
Qed.

Lemma Zsum_insert_active h (m : gmap string addr) id c :
  m !! id = None →
  Zsum ((λ ia, entryWeightAt h ia.2) <$> map_to_list (<[id := c]> m)) =
  (entryWeightAt h c + Zsum ((λ ia, entryWeightAt h ia.2) <$> map_to_list m))%Z.
Proof.
  intros Hnone.
  by rewrite (Zsum_perm _ _
    (fmap_Permutation _ _ _ (map_to_list_insert _ _ _ Hnone))).
Qed.

Lemma Zsum_delete_active h (m : gmap string addr) id a :
  m !! id = Some a →
  Zsum ((λ ia, entryWeightAt h ia.2) <$> map_to_list m) =
  (entryWeightAt h a +
   Zsum ((λ ia, entryWeightAt h ia.2) <$> map_to_list (delete id m)))%Z.
Proof.
  intros Hsome.
  by rewrite <- (Zsum_perm _ _
    (fmap_Permutation _ _ _ (map_to_list_delete _ _ _ Hsome))).
Qed.

Lemma Zsum_ext_active h h' (m : gmap string addr) :
  (∀ id a, m !! id = Some a → entryWeightAt h' a = entryWeightAt h a) →
  Zsum ((λ ia, entryWeightAt h' ia.2) <$> map_to_list m) =
  Zsum ((λ ia, entryWeightAt h ia.2) <$> map_to_list m).
Proof.
  intros Hext. f_equal. apply list_fmap_ext. intros i [id a] Hia. simpl.
  apply (Hext id). apply elem_of_map_to_list.
  by apply list_elem_of_lookup_2 in Hia.
Qed.

Lemma active_allocated s id a :
  tree_ok s → activeHosts (hdb s) !! id = Some a → is_Some (heap s !! a).
Proof.
  intros (_ & (_ & Hl & _) & Hact & _) Ha.
  eapply in_tree_allocated; [done|]. by eapply Hact.
Qed.

Lemma Insert_invariants entry s :
  tree_ok s →
  tree_ok (state_of (Insert entry s)) ∧
  (conserved s → conserved (state_of (Insert entry s))) ∧
  (root_active s → root_active (state_of (Insert entry s))).
Proof.
  intros Hs. pose proof Hs as (Hl & Hok & Hact & Hinj).
  rewrite Insert_unlocked by done.
  destruct (activeHosts (hdb s) !! ID entry) as [a0|] eqn:Hlk.
  { split; [by apply tree_ok_touch|]. by split. }
  destruct (hostTree (hdb s)) as [root|] eqn:Hroot.
  - destruct (insert_heap_ok root entry (heap s) Hok)
      as (h' & -> & Hok' & Hlen & Hsw & Hmono & Hnew & (nn & Hnn & Hent) & Hold).
    assert (Hext : ∀ id a, activeHosts (hdb s) !! id = Some a →
      entryWeightAt h' a = entryWeightAt (heap s) a).
    { intros id a Ha. destruct (active_allocated s id a Hs Ha) as [k Hk].
      destruct (Hold a k Hk) as (k' & Hk' & He). unfold entryWeightAt.
      rewrite Hk, Hk'. simpl. unfold ownWeight. by rewrite He. }
    split; [|split].
    + apply tree_ok_touch. split; [done|]. simpl. rewrite Hroot.
      split; [done|]. split.
      * intros id a [[_ <-]|[_ Ha]]%lookup_insert_Some; [done|].
        apply Hmono. by apply (Hact id).
      * intros id id' a [[<- <-]|[Hne Ha]]%lookup_insert_Some
          [[<- Heq]|[Hne' Ha']]%lookup_insert_Some; [done| | |by eapply Hinj].
        -- destruct (active_allocated s id' _ Hs Ha') as [k Hk].
           apply lookup_lt_Some in Hk. lia.
        -- destruct (active_allocated s id _ Hs Ha) as [k Hk].
           apply lookup_lt_Some in Hk. lia.
    + intros Hc. apply conserved_touch. unfold conserved, activeWeight in *.
      simpl. rewrite Hroot in *. rewrite Hsw, Hc.
      rewrite Zsum_insert_active by done.
      rewrite (Zsum_ext_active (heap s) h') by done.
      assert (entryWeightAt h' (length (heap s)) = Weight entry) as ->.
      { unfold entryWeightAt. rewrite Hnn. simpl. unfold ownWeight.
        by rewrite Hent. }
      lia.
    + intros Hra. apply root_active_touch. intros r Hr. simpl in Hr.
      destruct (Hra r Hr) as [id0 Hid0]. exists id0. simpl.
      rewrite lookup_insert_ne; [done|]. intros <-. congruence.
  - assert (activeHosts (hdb s) = ∅) as Hempty.
    { apply map_empty. intros id.
      destruct (activeHosts (hdb s) !! id) as [a|] eqn:Ha; [|done].
      destruct (in_tree_no_root _ _ (Hact id a Ha)). }
    destruct Hok as (Ho & Hlk' & Hd & _ & Hw).
    pose proof (first_node_heap_ok (heap s) entry Ho Hlk' Hd Hw) as Hok'.
    set (leaf := mkNode None (Weight entry) None None entry) in *.
    assert ((heap s ++ [leaf]) !! length (heap s) = Some leaf) as Hleaf
      by (by apply list_lookup_middle).
    split; [|split].
    + apply tree_ok_touch. split; [done|]. simpl. split; [done|]. split.
      * intros id a. rewrite Hempty.
        intros [[_ <-]|[_ Ha]]%lookup_insert_Some;
          [|by rewrite lookup_empty in Ha].
        apply in_tree_root; [done|eauto].
      * intros id id' a. rewrite Hempty.
        intros [[<- <-]|[_ Ha]]%lookup_insert_Some
          [[<- _]|[_ Ha']]%lookup_insert_Some; try done;
          by rewrite lookup_empty in *.
    + intros _. apply conserved_touch. unfold conserved, activeWeight.
      simpl. rewrite Hleaf. simpl. rewrite Hempty.
      rewrite Zsum_insert_active by apply lookup_empty.
      rewrite map_to_list_empty. simpl.
      assert (entryWeightAt (heap s ++ [leaf]) (length (heap s))
              = Weight entry) as ->.
      { unfold entryWeightAt. by rewrite Hleaf. }
      lia.
    + intros _. apply root_active_touch. intros r Hr. simpl in Hr.
      injection Hr as <-. exists (ID entry). simpl.
      by rewrite lookup_insert_eq.
Qed.

Lemma leaf_below_childless s id : leaf_below s id → childless s id.
Proof.
  intros H a n Ha Hn. destruct (H a n Ha Hn) as (? & ? & _). by split.
Qed.

Lemma Remove_invariants id s :
  tree_ok s → childless s id →
  tree_ok (state_of (Remove id s)) ∧
  (leaf_below s id → conserved s → conserved (state_of (Remove id s))) ∧
  (leaf_below s id → root_active s → root_active (state_of (Remove id s))).
Proof.
  intros Hs Hch. pose proof Hs as (Hl & Hok & Hact & Hinj).
  rewrite Remove_unlocked by done.
  destruct (activeHosts (hdb s) !! id) as [a|] eqn:Hlk.
  - destruct (active_allocated s id a Hs Hlk) as [n Hn].
    destruct (Hch a n Hlk Hn) as [HnL HnR].
    destruct (remove_leaf_heap_ok (heap s) (hostTree (hdb s)) a n Hok
                (Hact id a Hlk) Hn HnL HnR)
      as (h' & -> & Hok' & Hlen & Hold & Hmono & Hpar).
    assert (Hext : ∀ id' a', activeHosts (hdb s) !! id' = Some a' →
      entryWeightAt h' a' = entryWeightAt (heap s) a').
    { intros id' a' Ha'. destruct (active_allocated s id' a' Hs Ha') as [k Hk].
      destruct (Hold a' k Hk) as (k' & Hk' & He). unfold entryWeightAt.
      rewrite Hk, Hk'. simpl. unfold ownWeight. by rewrite He. }
    split; [|split].
    + apply tree_ok_touch. split; [done|]. simpl. split; [done|]. split.
      * intros id' a' [Hne Ha']%lookup_delete_Some.
        apply Hmono; [by apply (Hact id')|]. intros ->.
        apply Hne. by apply (Hinj id id' a).
      * intros id1 id2 a' [_ H1]%lookup_delete_Some [_ H2]%lookup_delete_Some.
        by apply (Hinj id1 id2 a').
    + intros Hleaf Hc. apply conserved_touch.
      destruct (Hleaf a n Hlk Hn) as (_ & _ & [p Hp]). rewrite Hp in Hpar.
      unfold conserved, activeWeight in *. simpl. rewrite Hpar, Hc.
      rewrite (Zsum_delete_active (heap s) _ id a Hlk).
      rewrite (Zsum_ext_active (heap s) h').
      * assert (entryWeightAt (heap s) a = ownWeight n) as ->.
        { unfold entryWeightAt. by rewrite Hn. }
        lia.
      * intros id' a' [_ Ha']%lookup_delete_Some. by apply (Hext id').
    + intros Hleaf Hra. apply root_active_touch. intros r Hr. simpl in Hr.
      destruct (Hra r Hr) as [id0 Hid0]. exists id0. simpl.
      rewrite lookup_delete_ne; [done|]. intros <-.
      assert (a = r) as -> by congruence.
      destruct Hok as (_ & _ & _ & Hrok & _).
      destruct (Hrok r Hr) as (n' & Hn' & Hp').
      destruct (Hleaf r n Hlk Hn) as (_ & _ & [p Hp]). congruence.
  - destruct (inactiveHosts (hdb s) !! id).
    + split; [|by split]. apply tree_ok_touch. by split.
    + split; [by apply tree_ok_touch|]. by split.
Qed.

Lemma reach_tree_ok s : reach childless s → tree_ok s.
Proof.
  induction 1 as [|s entry _ IH|s id _ IH Hid].
  - apply tree_ok_init.
  - by apply Insert_invariants.
  - by apply Remove_invariants.
Qed.

Lemma reach_conserved s :
  reach leaf_below s → tree_ok s ∧ conserved s ∧ root_active s.
Proof.
  induction 1 as [|s entry _ (IH1 & IH2 & IH3)|s id _ (IH1 & IH2 & IH3) Hid].
  - split; [apply tree_ok_init|]. split; [done|]. by intros r.
  - destruct (Insert_invariants entry s IH1) as (H1 & H2 & H3). auto.
  - destruct (Remove_invariants id s IH1 (leaf_below_childless s id Hid))
      as (H1 & H2 & H3). auto.
Qed.



Lemma stateAB_B_is_leaf : leaf_below stateAB "B".
Proof.
  intros a n Ha Hn. vm_compute in Ha. injection Ha as <-.
  vm_compute in Hn. injection Hn as <-. split; [done|]. split; [done|eauto].
Qed.





(** The same with the replacing leaf two levels down.  In the tree of A, L,
    X, B and Y the rightmost descendant of A's right subtree is the leaf Y
    below X.  [Remove] of A puts Y's entry (weight 50) at the root and takes
    50 off X and off the root: X is right again, the root is not. *)
Lemma I1_broken_by_deep_Remove :
  heap stateDeep =
    [mkNode None 210 (Some 1) (Some 2) hostA;
     mkNode (Some 0) 100 None None hostL;
     mkNode (Some 0) 100 (Some 3) (Some 4) hostX;
     mkNode (Some 2) 30 None None hostB;
     mkNode (Some 2) 50 None None hostY] ∧
  heap stateDeep_minus_A =
    [mkNode None 160 (Some 1) (Some 2) hostY;
     mkNode (Some 0) 100 None None hostL;
     mkNode (Some 0) 50 (Some 3) None hostX;
     mkNode (Some 2) 30 None None hostB;
     mkNode (Some 2) 50 None None hostY] ∧
  ¬ weight_ok (heap stateDeep_minus_A)
      (mkNode None 160 (Some 1) (Some 2) hostY).
Proof.
  split; [by vm_compute|]. split; [by vm_compute|].
  unfold weight_ok. vm_compute. discriminate.
Qed.

(** * Further properties of the container *)

(** ** Insert and Remove *)

Lemma Insert_fresh_run (entry : HostEntry) (s : State) :
  dbLock (hdb s) = Unlocked → wf s →
  activeHosts (hdb s) !! ID entry = None →
  ∃ h, length h = S (length (heap s)) ∧
    Insert entry s =
      Ret None
        (mkState h
           (mkHostDB
              (Some (default (length (heap s)) (hostTree (hdb s))))
              (<[ID entry := length (heap s)]> (activeHosts (hdb s)))
              (inactiveHosts (hdb s)) Unlocked)
           (EvUnlock :: EvLock :: trace s)).
Proof.
  intros Hl (Ho & Hr & _) Hfresh. rewrite Insert_unlocked, Hfresh by done.
  destruct (hostTree (hdb s)) as [root|] eqn:Hroot.
  - destruct (insert_total root entry (heap s) Ho (Hr root eq_refl))
      as (h' & -> & Hlen & _).
    exists h'. split; [done|]. rewrite touch_eq by done. simpl.
    by rewrite Hroot, Hl.
  - eexists. split; [|rewrite touch_eq by done; simpl; by rewrite Hl].
    rewrite length_app. simpl. lia.
Qed.

(** X1: A successful [Insert]: on a free lock and a well-formed state, an entry
    whose id is not active is inserted and nil is returned; the id is
    mapped to the node allocated for it, the root is set if there was none,
    and the inactive index and the other active ids are as before. *)
Theorem Insert_fresh (entry : HostEntry) (s : State) :
  dbLock (hdb s) = Unlocked → wf s →
  activeHosts (hdb s) !! ID entry = None →
  ∃ h, length h = S (length (heap s)) ∧
    Insert entry s =
      Ret None
        (mkState h
           (mkHostDB
              (Some (default (length (heap s)) (hostTree (hdb s))))
              (<[ID entry := length (heap s)]> (activeHosts (hdb s)))
              (inactiveHosts (hdb s)) Unlocked)
           (EvUnlock :: EvLock :: trace s)).
Proof. apply Insert_fresh_run. Qed.

Lemma Insert_fresh_witness :
  ∃ h, length h = S (length (heap stateA)) ∧
    Insert hostB stateA =
      Ret None
        (mkState h
           (mkHostDB
              (Some (default (length (heap stateA)) (hostTree (hdb stateA))))
              (<[ID hostB := length (heap stateA)]> (activeHosts (hdb stateA)))
              (inactiveHosts (hdb stateA)) Unlocked)
           (EvUnlock :: EvLock :: trace stateA)).
Proof.
  apply (Insert_fresh hostB stateA).
  - apply stateA_free.
  - apply stateA_wf.
  - vm_compute. reflexivity.
Defined.

(** X2: [Insert] followed by [Remove] of the same id: on a free lock and a
    well-formed state, for an id that is not active, both calls return nil
    and both indices are what they were before the [Insert]. *)
Theorem Insert_then_Remove (entry : HostEntry) (s : State) :
  dbLock (hdb s) = Unlocked → wf s →
  activeHosts (hdb s) !! ID entry = None →
  ∃ s1 s2, Insert entry s = Ret None s1 ∧
    Remove (ID entry) s1 = Ret None s2 ∧
    activeHosts (hdb s2) = activeHosts (hdb s) ∧
    inactiveHosts (hdb s2) = inactiveHosts (hdb s) ∧
    dbLock (hdb s2) = Unlocked.
Proof.
  intros Hl Hwf Hfresh.
  pose proof (wf_Insert entry s Hl Hwf) as Hwf1.
  destruct (Insert_fresh_run entry s Hl Hwf Hfresh) as (h & Hlen & HI).
  rewrite HI in Hwf1. simpl in Hwf1. rewrite HI.
  destruct Hwf1 as (Ho1 & _ & _). simpl in Ho1.
  destruct (remove_total (length h) (length (heap s)) h)
    as (h' & Hrm & _); [done|lia|lia|].
  eexists _, _. split; [reflexivity|].
  rewrite Remove_unlocked by done. simpl. rewrite lookup_insert_eq, Hrm.
  split; [reflexivity|]. simpl. split; [|done].
  by apply delete_insert_id.
Qed.

Lemma Insert_then_Remove_witness :
  ∃ s1 s2, Insert hostB stateA = Ret None s1 ∧
    Remove (ID hostB) s1 = Ret None s2 ∧
    activeHosts (hdb s2) = activeHosts (hdb stateA) ∧
    inactiveHosts (hdb s2) = inactiveHosts (hdb stateA) ∧
    dbLock (hdb s2) = Unlocked.
Proof.
  apply (Insert_then_Remove hostB stateA).
  - apply stateA_free.
  - apply stateA_wf.
  - vm_compute. reflexivity.
Defined.

(** X3: [Remove] twice: on a free lock and a well-formed state, for an id that
    is not in the inactive index, the first [Remove] returns, and a second
    [Remove] of the same id then returns the not-found error and leaves the
    heap, the root, both indices and the lock as the first one left them. *)
Theorem Remove_twice (id : string) (s : State) :
  dbLock (hdb s) = Unlocked → wf s →
  inactiveHosts (hdb s) !! id = None →
  ∃ err s1, Remove id s = Ret err s1 ∧
    Remove id s1 =
      Ret (Some ErrNotFound)
        (mkState (heap s1) (hdb s1) (EvUnlock :: EvLock :: trace s1)).
Proof.
  intros Hl (Ho & Hr & Ha) Hin. rewrite (Remove_unlocked id s) by done.
  destruct (activeHosts (hdb s) !! id) as [a|] eqn:Hact.
  - destruct (remove_total (length (heap s)) a (heap s))
      as (h' & -> & _); [done|by eapply Ha|lia|].
    eexists _, _. split; [done|].
    rewrite Remove_unlocked by done. simpl.
    rewrite lookup_delete_eq, Hin. rewrite touch_eq by done. done.
  - rewrite Hin. eexists _, _. split; [done|].
    rewrite Remove_unlocked by done. simpl. rewrite Hact, Hin.
    rewrite touch_eq by done. done.
Qed.

Lemma Remove_twice_witness :
  ∃ err s1, Remove "A" stateAB = Ret err s1 ∧
    Remove "A" s1 =
      Ret (Some ErrNotFound)
        (mkState (heap s1) (hdb s1) (EvUnlock :: EvLock :: trace s1)).
Proof.
  apply (Remove_twice "A" stateAB).
  - apply stateAB_free.
  - apply stateAB_wf.
  - vm_compute. reflexivity.
Defined.

Lemma Insert_untouched (entry : HostEntry) (s : State) (id : string) :
  inactiveHosts (hdb (state_of (Insert entry s))) = inactiveHosts (hdb s) ∧
  (id ≠ ID entry →
   activeHosts (hdb (state_of (Insert entry s))) !! id =
     activeHosts (hdb s) !! id).
Proof.
  destruct (decide (dbLock (hdb s) = Unlocked)) as [Hl|Hl].
  - rewrite Insert_unlocked by done.
    destruct (activeHosts (hdb s) !! ID entry) eqn:Hact; [done|].
    destruct (hostTree (hdb s)).
    + destruct (insert _ _ _) as [[? [? ?]]|]; [|done]. simpl.
      split; [done|]. intros Hne. by rewrite lookup_insert_ne.
    + simpl. split; [done|]. intros Hne. by rewrite lookup_insert_ne.
  - unfold Insert. by rewrite lock_held.
Qed.

(** X4: [Insert] never looks at or writes the inactive index, and it leaves the
    mapping of every other id of the active index alone, however the call
    ends. *)
Theorem Insert_frame (entry : HostEntry) (s : State) (id : string) :
  inactiveHosts (hdb (state_of (Insert entry s))) = inactiveHosts (hdb s) ∧
  (id ≠ ID entry →
   activeHosts (hdb (state_of (Insert entry s))) !! id =
     activeHosts (hdb s) !! id).
Proof. apply Insert_untouched. Qed.

Lemma Insert_frame_witness :
  inactiveHosts (hdb (state_of (Insert hostB stateA)))
    = inactiveHosts (hdb stateA) ∧
  activeHosts (hdb (state_of (Insert hostB stateA))) !! "A" =
    activeHosts (hdb stateA) !! "A".
Proof.
  destruct (Insert_frame hostB stateA "A") as [H1 H2].
  split; [exact H1|]. apply H2. discriminate.
Defined.

(** X5: [Remove] leaves the mappings of every other id alone, in both indices,
    however the call ends. *)
Theorem Remove_frame (id id' : string) (s : State) :
  id' ≠ id →
  activeHosts (hdb (state_of (Remove id s))) !! id' =
    activeHosts (hdb s) !! id' ∧
  inactiveHosts (hdb (state_of (Remove id s))) !! id' =
    inactiveHosts (hdb s) !! id'.
Proof.
  intros Hne. destruct (decide (dbLock (hdb s) = Unlocked)) as [Hl|Hl].
  - rewrite Remove_unlocked by done.
    destruct (activeHosts (hdb s) !! id) eqn:Hact.
    + destruct (remove _ _ _); simpl; by rewrite lookup_delete_ne.
    + destruct (inactiveHosts (hdb s) !! id); simpl; [|done].
      by rewrite lookup_delete_ne.
  - unfold Remove. by rewrite lock_held.
Qed.

Lemma Remove_frame_witness :
  activeHosts (hdb (state_of (Remove "A" stateAB))) !! "B" =
    activeHosts (hdb stateAB) !! "B" ∧
  inactiveHosts (hdb (state_of (Remove "A" stateAB))) !! "B" =
    inactiveHosts (hdb stateAB) !! "B".
Proof. apply (Remove_frame "A" "B" stateAB). discriminate. Defined.

(** X6: [Insert] tests the active index only: an id that sits in the inactive
    index and not in the active one is inserted all the same, and is then
    in both indices. *)
Theorem Insert_of_inactive_id (entry : HostEntry) (s : State) :
  dbLock (hdb s) = Unlocked → wf s →
  activeHosts (hdb s) !! ID entry = None →
  is_Some (inactiveHosts (hdb s) !! ID entry) →
  ∃ s', Insert entry s = Ret None s' ∧
    is_Some (activeHosts (hdb s') !! ID entry) ∧
    is_Some (inactiveHosts (hdb s') !! ID entry).
Proof.
  intros Hl Hwf Hfresh Hin.
  destruct (Insert_fresh_run entry s Hl Hwf Hfresh) as (h & _ & ->).
  eexists. split; [done|]. simpl. rewrite lookup_insert_eq. eauto.
Qed.

Lemma Insert_of_inactive_id_witness :
  ∃ s', Insert hostB stateInactiveB = Ret None s' ∧
    is_Some (activeHosts (hdb s') !! ID hostB) ∧
    is_Some (inactiveHosts (hdb s') !! ID hostB).
Proof.
  apply (Insert_of_inactive_id hostB stateInactiveB).
  - reflexivity.
  - split; [|split].
    + intros a n H. by destruct a.
    + intros r H. discriminate H.
    + intros id a H. vm_compute in H. discriminate H.
  - vm_compute. reflexivity.
  - vm_compute. eexists. reflexivity.
Defined.

(** ** What no call does to the inactive index *)

Section InactiveShrinks.
Variable m0 : gmap string HostEntry.

Local Notation within := (λ s : State, inactiveHosts (hdb s) ⊆ m0).

Lemma within_lock l ev s : within s → within (set_dbLock l ev s).
Proof. done. Qed.

Lemma within_Insert entry : preserves within (Insert entry).
Proof.
  intros s Hs. by rewrite (proj1 (Insert_untouched entry s "")).
Qed.

Lemma within_Remove id : preserves within (Remove id).
Proof.
  apply preserves_bind; [apply preserves_lock, within_lock|intros _].
  apply preserves_defer; [apply preserves_unlock, within_lock|].
  intros s Hs. cbv beta zeta. destruct (activeHosts (hdb s) !! id).
  - by destruct (remove _ _ _).
  - destruct (inactiveHosts (hdb s) !! id); [|done]. simpl.
    etrans; [apply delete_subseteq|done].
Qed.
End InactiveShrinks.

Section UpdateMore.
Context {Block : Type}.
Variable scan : Z → Block → result (list HostEntry).

Lemma within_Update m0 height rewound applied :
  preserves (λ s, inactiveHosts (hdb s) ⊆ m0)
    (Update scan height rewound applied).
Proof.
  apply preserves_bind; [apply preserves_lock, within_lock|intros _].
  apply preserves_defer; [apply preserves_unlock, within_lock|].
  apply preserves_bind.
  - induction rewound as [|b rest IH]; [apply preserves_ret|].
    cbn [rewindBlocks]. destruct (scan height b) as [entries|];
      [|apply preserves_ret].
    apply preserves_bind.
    + clear IH. induction entries as [|e es IHe]; [apply preserves_ret|].
      apply preserves_bind; [apply within_Remove|].
      intros [err|]; [apply preserves_ret|apply IHe].
    + intros [err|]; [apply preserves_ret|apply IH].
  - intros [err|]; [apply preserves_ret|].
    induction applied as [|b rest IH]; [apply preserves_ret|].
    cbn [applyBlocks]. destruct (scan height b) as [entries|];
      [|apply preserves_ret].
    apply preserves_bind.
    + clear IH. induction entries as [|e es IHe]; [apply preserves_ret|].
      apply preserves_bind; [apply preserves_unlock, within_lock|intros _].
      apply preserves_bind; [apply within_Insert|intros err].
      apply preserves_bind; [apply preserves_lock, within_lock|intros _].
      destruct err; [apply preserves_ret|apply IHe].
    + intros [err|]; [apply preserves_ret|apply IH].
Qed.

(** X7: No call adds to the inactive index: whatever the state, the scanner and
    the way the call ends, the inactive index after [Insert], [Remove] or
    [Update] is a part of the inactive index before it. *)
Theorem inactive_never_grows (o : Op (Block := Block)) (s : State) :
  inactiveHosts (hdb (state_of (exec scan o s))) ⊆ inactiveHosts (hdb s).
Proof.
  destruct o; simpl.
  - by apply (within_Insert (inactiveHosts (hdb s))).
  - by apply (within_Remove (inactiveHosts (hdb s))).
  - by apply (within_Update (inactiveHosts (hdb s))).
Qed.

Lemma rewind_plan_quiet_app height q rest :
  quiet scan height q →
  rewind_plan scan height (q ++ rest) = rewind_plan scan height rest.
Proof.
  induction q as [|b q IH]; intros Hq; [done|]. simpl.
  rewrite (Hq b) by left. apply IH. intros b' Hb'. apply Hq. by right.
Qed.

Lemma applyBlocks_quiet height blocks s :
  quiet scan height blocks → applyBlocks scan height blocks s = Ret None s.
Proof.
  induction blocks as [|b rest IH]; intros Hq; [done|].
  cbn [applyBlocks]. rewrite (Hq b) by left.
  unfold bind. simpl. apply IH. intros b' Hb'. apply Hq. by right.
Qed.

(** X8: [Update] over blocks without announcements: on a free lock, when the
    scanner finds no announcement in any rewound or applied block, [Update]
    returns nil and the container is as before; the lock was taken and
    released once. *)
Theorem Update_without_announcements height rewound applied s :
  dbLock (hdb s) = Unlocked →
  quiet scan height rewound → quiet scan height applied →
  Update scan height rewound applied s =
    Ret None (mkState (heap s) (hdb s) (EvUnlock :: EvLock :: trace s)).
Proof.
  intros Hl Hqr Hqa. rewrite Update_unlocked by done.
  rewrite <- (app_nil_r rewound), rewind_plan_quiet_app by done. simpl.
  unfold defer. rewrite applyBlocks_quiet by done. simpl.
  by rewrite <- touch_eq.
Qed.

(** X9: A scanner failure among the rewound blocks: on a free lock, when the
    scanner fails on a rewound block and found no announcement in the
    rewound blocks before it, [Update] returns the scanner's error as it is;
    no applied block is looked at and the container is as before. *)
Theorem Update_rewound_scan_error height q b rest applied e s :
  dbLock (hdb s) = Unlocked →
  quiet scan height q → scan height b = Err e →
  Update scan height (q ++ b :: rest) applied s =
    Ret (Some e) (mkState (heap s) (hdb s) (EvUnlock :: EvLock :: trace s)).
Proof.
  intros Hl Hq Hb. rewrite Update_unlocked by done.
  rewrite rewind_plan_quiet_app by done. simpl. rewrite Hb.
  by rewrite touch_eq.
Qed.

(** X10: An announcement in a rewound block: on a free lock, when the scanner
    finds an announcement in a rewound block and none in the rewound blocks
    before it, [Update] takes the lock and then waits for it inside
    [Remove]; it never returns, and the container is as before. *)
Theorem Update_rewound_announcement_waits
    height q b rest applied entry entries s :
  dbLock (hdb s) = Unlocked →
  quiet scan height q → scan height b = Ok (entry :: entries) →
  Update scan height (q ++ b :: rest) applied s =
    Blocked
      (mkState (heap s)
         (mkHostDB (hostTree (hdb s)) (activeHosts (hdb s))
            (inactiveHosts (hdb s)) WLocked)
         (EvLock :: trace s)).
Proof.
  intros Hl Hq Hb. rewrite Update_unlocked by done.
  rewrite rewind_plan_quiet_app by done. simpl. by rewrite Hb.
Qed.
End UpdateMore.

Lemma quiet_nil {Block} (scan : Z → Block → result (list HostEntry)) height :
  quiet scan height [].
Proof. intros b Hb. by apply elem_of_nil in Hb. Qed.

Lemma quiet_empty_blocks :
  quiet scanned 0 [Ok []; Ok []].
Proof.
  intros b Hb. apply elem_of_cons in Hb as [->|Hb]; [done|].
  apply list_elem_of_singleton in Hb. by subst.
Qed.

Lemma Update_without_announcements_witness :
  Update scanned 0 [Ok []; Ok []] [Ok []; Ok []] stateAB =
    Ret None
      (mkState (heap stateAB) (hdb stateAB)
         (EvUnlock :: EvLock :: trace stateAB)).
Proof.
  apply Update_without_announcements.
  - apply stateAB_free.
  - apply quiet_empty_blocks.
  - apply quiet_empty_blocks.
Defined.

Lemma Update_rewound_scan_error_witness :
  Update scanned 0 ([Ok []; Ok []] ++ Err (ErrOther "bad block") :: [Ok [hostA]])
      [Ok [hostC]] stateAB =
    Ret (Some (ErrOther "bad block"))
      (mkState (heap stateAB) (hdb stateAB)
         (EvUnlock :: EvLock :: trace stateAB)).
Proof.
  apply Update_rewound_scan_error.
  - apply stateAB_free.
  - apply quiet_empty_blocks.
  - reflexivity.
Defined.

Lemma Update_rewound_announcement_waits_witness :
  Update scanned 0 ([Ok []; Ok []] ++ Ok [hostB] :: []) [Ok [hostC]] stateAB =
    Blocked
      (mkState (heap stateAB)
         (mkHostDB (hostTree (hdb stateAB)) (activeHosts (hdb stateAB))
            (inactiveHosts (hdb stateAB)) WLocked)
         (EvLock :: trace stateAB)).
Proof.
  apply (Update_rewound_announcement_waits scanned 0 [Ok []; Ok []]
           (Ok [hostB]) [] [Ok [hostC]] hostB [] stateAB).
  - apply stateAB_free.
  - apply quiet_empty_blocks.
  - reflexivity.
Defined.

(** ** No call panics, and a returning call frees the lock *)

Section NoPanic.
Context {Block : Type}.
Variable scan : Z → Block → result (list HostEntry).

Lemma exec_outcome (o : Op (Block := Block)) s :
  wf s → lock_free_or_written s →
  match exec scan o s with
  | Ret _ s' => wf s' ∧ dbLock (hdb s') = Unlocked
  | Blocked s' => wf s' ∧ dbLock (hdb s') = WLocked
  | Panic _ => False
  end.
Proof.
  intros Hwf [Hl|Hl].
  - destruct o as [entry|id|height rewound applied]; simpl.
    + destruct (Insert_spec entry s Hl Hwf) as (err & s' & -> & ? & ? & _).
      done.
    + pose proof (wf_Remove id s Hl Hwf) as Hwf'.
      pose proof (Remove_keeps_free id s Hl) as Hl'.
      destruct Hwf as (Ho & Hr & Ha). rewrite Remove_unlocked in * by done.
      destruct (activeHosts (hdb s) !! id) as [a|] eqn:Hact.
      * destruct (remove_total (length (heap s)) a (heap s))
          as (h' & Hrm & _); [done|by eapply Ha|lia|].
        rewrite Hrm in *. done.
      * by destruct (inactiveHosts (hdb s) !! id).
    + rewrite Update_unlocked by done.
      destruct (rewind_plan scan height rewound) as [[e|]|].
      * split; [by apply wf_touch|done].
      * destruct (applyBlocks_spec scan height applied
                    (set_dbLock WLocked EvLock s))
          as (err & s' & ins & k & HR & Hl' & Hwf' & _);
          [done|by apply wf_lock|].
        unfold defer. rewrite HR. unfold unlock. rewrite Hl'.
        split; [by apply wf_lock|done].
      * split; [by apply wf_lock|done].
  - assert (dbLock (hdb s) ≠ Unlocked) as Hne by (by rewrite Hl).
    destruct o as [entry|id|height rewound applied]; simpl.
    + unfold Insert. by rewrite lock_held.
    + by rewrite Remove_held.
    + unfold Update. by rewrite lock_held.
Qed.

Lemma run_keeps_wf (ops : list (Op (Block := Block))) s :
  wf s → lock_free_or_written s →
  wf (run scan ops s) ∧ lock_free_or_written (run scan ops s).
Proof.
  revert s. induction ops as [|o ops IH]; intros s Hwf Hl; [done|].
  simpl. pose proof (exec_outcome o s Hwf Hl) as Ho.
  destruct (exec scan o s) as [err s'|s'|s']; [| done |];
    destruct Ho as [Hwf' Hl']; apply IH; try done.
  - by left.
  - by right.
Qed.

(** X11: From a container built by [New], after any sequence of [Insert],
    [Remove] and [Update] calls and with any scanner, the next call does not
    panic, and if it returns it leaves the lock free; a call that does not
    return is waiting for the lock. *)
Theorem calls_never_panic (ops : list (Op (Block := Block))) (o : Op) :
  match exec scan o (run scan ops init) with
  | Ret _ s' => dbLock (hdb s') = Unlocked
  | Blocked s' => dbLock (hdb s') = WLocked
  | Panic _ => False
  end.
Proof.
  destruct (run_keeps_wf ops init wf_init (or_introl eq_refl)) as [Hwf Hl].
  pose proof (exec_outcome o _ Hwf Hl) as Ho.
  destruct (exec scan o (run scan ops init)); [by destruct Ho|done|].
  by destruct Ho.
Qed.
End NoPanic.

(** ** The applied blocks as a sequence of Inserts *)

Lemma same_container_refl s : same_container s s.
Proof. done. Qed.

Lemma same_container_lock l ev s s' :
  same_container s s' → same_container (set_dbLock l ev s) s'.
Proof. done. Qed.

Lemma wf_same_container s s' : same_container s s' → wf s' → wf s.
Proof.
  intros (Hh & Hr & Ha & _) (Ho & Hroot & Hact).
  unfold wf. rewrite Hh, Hr, Ha. done.
Qed.

(** [Insert] does the same to the same container, whatever the log. *)
Lemma Insert_same_container entry s s' :
  same_container s s' →
  dbLock (hdb s) = Unlocked → dbLock (hdb s') = Unlocked → wf s' →
  ∃ err t t', Insert entry s = Ret err t ∧ Insert entry s' = Ret err t' ∧
    same_container t t' ∧
    dbLock (hdb t) = Unlocked ∧ dbLock (hdb t') = Unlocked ∧ wf t'.
Proof.
  intros Hsame Hl Hl' Hwf'.
  pose proof (wf_Insert entry s' Hl' Hwf') as Hwft.
  pose proof (Insert_keeps_free entry s' Hl') as Hlt'.
  pose proof (Insert_keeps_free entry s Hl) as Hlt.
  destruct Hsame as (Hh & Hr & Ha & Hi). destruct Hwf' as (Ho & Hroot & _).
  rewrite !Insert_unlocked in * by done. rewrite Hh, Hr, Ha in *.
  assert (Hfin : ∀ err t t', Ret err t = Ret err t →
    wf t' → dbLock (hdb t) = Unlocked → dbLock (hdb t') = Unlocked →
    same_container t t' →
    ∃ err0 t0 t0', Ret err t = Ret err0 t0 ∧
      @Ret (option error) err t' = Ret err0 t0' ∧ same_container t0 t0' ∧
      dbLock (hdb t0) = Unlocked ∧ dbLock (hdb t0') = Unlocked ∧ wf t0').
  { intros err t t' _ ? ? ? ?. by exists err, t, t'. }
  destruct (activeHosts (hdb s') !! ID entry).
  { apply Hfin; try done; repeat split; simpl; congruence. }
  destruct (hostTree (hdb s')) as [root|] eqn:Hroot'.
  - destruct (insert_total root entry (heap s') Ho (Hroot root eq_refl))
      as (h' & Hins & _). rewrite Hins in *.
    apply Hfin; try done; repeat split; simpl; congruence.
  - apply Hfin; try done; repeat split; simpl; congruence.
Qed.

Lemma insertEach_app l1 l2 s :
  insertEach (l1 ++ l2) s =
    (call err <- insertEach l1;
     match err with
     | Some e => ret (Some e)
     | None => insertEach l2
     end) s.
Proof.
  revert s. induction l1 as [|e l1 IH]; intros s; [done|].
  cbn [insertEach app]. unfold bind.
  destruct (Insert e s) as [[err|] s'| |]; try done; by rewrite IH.
Qed.

Lemma insertEntries_insertEach entries sw su :
  same_container sw su →
  dbLock (hdb sw) = WLocked → dbLock (hdb su) = Unlocked → wf su →
  ∃ err sw' su', insertEntries entries sw = Ret err sw' ∧
    insertEach entries su = Ret err su' ∧ same_container sw' su' ∧
    dbLock (hdb sw') = WLocked ∧ dbLock (hdb su') = Unlocked ∧ wf su'.
Proof.
  revert sw su. induction entries as [|e rest IH]; intros sw su Hsame Hlw Hlu Hwf.
  - by exists None, sw, su.
  - destruct (Insert_same_container e (set_dbLock Unlocked EvUnlock sw) su)
      as (err & t & t' & HIw & HIu & Hst & Hlt & Hlt' & Hwft');
      [by apply same_container_lock|done|done|done|].
    cbn [insertEntries insertEach]. unfold bind, unlock. rewrite Hlw.
    cbv beta iota. rewrite HIw, HIu. unfold lock. rewrite Hlt.
    cbv beta iota.
    destruct err as [e'|].
    + exists (Some e'), (set_dbLock WLocked EvLock t), t'.
      split; [done|]. split; [done|]. split; [by apply same_container_lock|].
      done.
    + apply IH; [by apply same_container_lock|done..].
Qed.

Section UpdateAsInserts.
Context {Block : Type}.
Variable scan : Z → Block → result (list HostEntry).

Lemma applyBlocks_insertEach height blocks sw su :
  (∀ b, b ∈ blocks → ¬ scan_fails scan height b) →
  same_container sw su →
  dbLock (hdb sw) = WLocked → dbLock (hdb su) = Unlocked → wf su →
  ∃ err sw' su', applyBlocks scan height blocks sw = Ret err sw' ∧
    insertEach (announced scan height blocks) su = Ret err su' ∧
    same_container sw' su' ∧
    dbLock (hdb sw') = WLocked ∧ dbLock (hdb su') = Unlocked ∧ wf su'.
Proof.
  revert sw su. induction blocks as [|b rest IH];
    intros sw su Hok Hsame Hlw Hlu Hwf.
  - by exists None, sw, su.
  - cbn [applyBlocks announced].
    destruct (scan height b) as [entries|e] eqn:Hscan.
    + destruct (insertEntries_insertEach entries sw su Hsame Hlw Hlu Hwf)
        as (err1 & sw1 & su1 & HRw & HRu & Hs1 & Hlw1 & Hlu1 & Hwf1).
      rewrite insertEach_app. unfold bind. rewrite HRw, HRu.
      destruct err1 as [e1|].
      * by exists (Some e1), sw1, su1.
      * apply IH; [|done..]. intros b' Hb'. apply Hok. by right.
    + destruct (Hok b); [by left|by exists e].
Qed.

(** X12: The apply phase of [Update] is [Insert] call after [Insert] call: on a
    free lock and a well-formed state, when the rewound blocks carry no
    announcement and the scanner accepts every applied block, [Update]
    returns what inserting the applied announcements one by one, in order
    and up to the first failure, returns, and leaves the same heap, root,
    indices and lock. *)
Theorem Update_is_insertEach height rewound applied s :
  dbLock (hdb s) = Unlocked → wf s →
  quiet scan height rewound →
  (∀ b, b ∈ applied → ¬ scan_fails scan height b) →
  ∃ err s1 s2,
    insertEach (announced scan height applied) s = Ret err s1 ∧
    Update scan height rewound applied s = Ret err s2 ∧
    heap s2 = heap s1 ∧ hdb s2 = hdb s1.
Proof.
  intros Hl Hwf Hq Hok. rewrite Update_unlocked by done.
  rewrite <- (app_nil_r rewound), rewind_plan_quiet_app by done. simpl.
  destruct (applyBlocks_insertEach height applied
              (set_dbLock WLocked EvLock s) s)
    as (err & sw' & su' & HRw & HRu & (Hh & Hr & Ha & Hi) & Hlw & Hlu & _);
    [done|done|done|done|done|].
  exists err, su', (set_dbLock Unlocked EvUnlock sw').
  split; [done|]. unfold defer. rewrite HRw. unfold unlock. rewrite Hlw.
  split; [done|]. split; [done|]. simpl. rewrite Hr, Ha, Hi.
  destruct su' as [? [? ? ? l] ?]. simpl in *. by subst.
Qed.
End UpdateAsInserts.

Lemma Update_is_insertEach_witness :
  ∃ err s1 s2,
    insertEach (announced scanned 0 [Ok [hostB]; Ok [hostC; hostB]]) stateA
      = Ret err s1 ∧
    Update scanned 0 [Ok []; Ok []] [Ok [hostB]; Ok [hostC; hostB]] stateA
      = Ret err s2 ∧
    heap s2 = heap s1 ∧ hdb s2 = hdb s1.
Proof.
  apply Update_is_insertEach.
  - apply stateA_free.
  - apply stateA_wf.
  - apply quiet_empty_blocks.
  - intros b Hb [e He]. apply elem_of_cons in Hb as [->|Hb]; [done|].
    apply list_elem_of_singleton in Hb. by subst.
Defined.

(** ** The sampler at its edges *)

(** X13: With no active host the sampler does not draw: on an unlocked container
    whose active index is empty, [RandomHost] returns the no-hosts error
    whatever the random source would answer and whatever the root of the
    tree is, and it changes nothing but the history of the lock. *)
Theorem RandomHost_without_hosts (rand_Int rand_Int' : Z → result Z)
    (s : State) :
  dbLock (hdb s) = Unlocked → activeHosts (hdb s) = ∅ →
  RandomHost rand_Int s = RandomHost rand_Int' s ∧
  RandomHost rand_Int s =
    Ret (Err ErrNoHosts)
      (mkState (heap s) (hdb s) (EvRUnlock :: EvRLock :: trace s)).
Proof.
  intros Hl Ha. by rewrite !RandomHost_empty.
Qed.

Lemma RandomHost_without_hosts_witness :
  hostTree (hdb stateA_minus_A) = Some 0 ∧
  RandomHost (λ _, Ok 0%Z) stateA_minus_A
    = RandomHost (λ _, Err (ErrOther "no entropy")) stateA_minus_A ∧
  RandomHost (λ _, Ok 0%Z) stateA_minus_A =
    Ret (Err ErrNoHosts)
      (mkState (heap stateA_minus_A) (hdb stateA_minus_A)
         (EvRUnlock :: EvRLock :: trace stateA_minus_A)).
Proof.
  split; [by vm_compute|].
  apply RandomHost_without_hosts; by vm_compute.
Defined.

(** X14: A total weight that is not positive as an [int64] makes the sampler
    panic: when the lock is not held by a writer, the active index is not
    empty and the weight cached at the root, converted to [int64], is 0 or
    negative, [RandomHost] panics in [rand.Int]; the deferred release runs
    and the container is as before. *)
Theorem RandomHost_panics_on_nonpositive_weight
    (rand_Int : Z → result Z) (s : State) (root : addr) (n : hostNode) :
  dbLock (hdb s) ≠ WLocked →
  activeHosts (hdb s) ≠ ∅ →
  hostTree (hdb s) = Some root → heap s !! root = Some n →
  (int64 (weight n) ≤ 0)%Z →
  ∃ s', RandomHost rand_Int s = Panic s' ∧
    heap s' = heap s ∧ hdb s' = hdb s.
Proof.
  destruct s as [h [r a i l] t]. simpl. intros Hl Ha -> Hn Hw.
  assert (size a ≠ 0) as Hsize by (by rewrite map_size_empty_iff).
  unfold RandomHost, bind, defer, rLock, rUnlock. simpl.
  destruct l as [| |k]; [|done|]; simpl;
    rewrite decide_False by done; rewrite Hn, decide_True by done;
    eexists; by split.
Qed.

Lemma RandomHost_panics_on_nonpositive_weight_witness :
  (∃ s', RandomHost (λ _, Ok 0%Z) stateZ = Panic s' ∧
     heap s' = heap stateZ ∧ hdb s' = hdb stateZ) ∧
  (∃ s', RandomHost (λ _, Ok 0%Z) stateHuge = Panic s' ∧
     heap s' = heap stateHuge ∧ hdb s' = hdb stateHuge).
Proof.
  split.
  - apply (RandomHost_panics_on_nonpositive_weight _ stateZ 0
             (mkNode None 0 None None hostZ)); by vm_compute.
  - apply (RandomHost_panics_on_nonpositive_weight _ stateHuge 0
             (mkNode None (2 ^ 63) None None hostHuge)); by vm_compute.
Defined.

(** * The test node *)

Lemma write_nonce_twice (b b' header : list Z) :
  length b' = 8 → 40 ≤ length header →
  write_nonce b (write_nonce b' header) = write_nonce b header.
Proof.
  intros Hb Hh. unfold write_nonce. f_equal.
  - rewrite take_app_le by (rewrite length_take; lia).
    by rewrite take_take.
  - f_equal. rewrite app_assoc.
    rewrite drop_app_length'; [done|].
    rewrite length_app, length_take. lia.
Qed.

Lemma nonce_of_write_nonce (b header : list Z) :
  length b = 8 → 32 ≤ length header →
  nonce_of (write_nonce b header) = b.
Proof.
  intros Hb Hh. unfold nonce_of, write_nonce.
  rewrite drop_app_length' by (rewrite length_take; lia).
  rewrite take_app_length'; done.
Qed.

Section SiatestProofs.
Context `{Collaborators}.

Lemma candidate_next (bh : BlockHeader) (k : nat) :
  (∀ n, length (uint64_bytes n) = 8) → 40 ≤ length (Marshal bh) →
  write_nonce (uint64_bytes (Z.of_nat k)) (candidate bh k)
    = candidate bh (S k).
Proof.
  intros Hu Hm. destruct k as [|j]; [done|].
  cbn [candidate]. by apply write_nonce_twice.
Qed.

Lemma solveLoop_spec (remaining k : nat) (target : list Z)
    (bh : BlockHeader) :
  (∀ n, length (uint64_bytes n) = 8) → 40 ≤ length (Marshal bh) →
  k + remaining ≤ 256 →
  match solveLoop remaining target bh (candidate bh k) (Z.of_nat k) with
  | Ok bh' =>
      ∃ i, k ≤ i < k + remaining ∧
        meets_target target (HashBytes (candidate bh i)) ∧
        (∀ j, k ≤ j < i →
           ¬ meets_target target (HashBytes (candidate bh j))) ∧
        bh' = set_Nonce (nonce_of (candidate bh i)) bh
  | Err e =>
      e = ErrOther "couldn't solve block" ∧
      ∀ j, k ≤ j < k + remaining →
        ¬ meets_target target (HashBytes (candidate bh j))
  end.
Proof.
  intros Hu Hm. revert k. induction remaining as [|r IH]; intros k Hk.
  - simpl. split; [done|]. intros j Hj. lia.
  - cbn [solveLoop]. case_decide as Hmeet.
    + exists k. split_and!; [lia|lia|done| |done]. intros j Hj. lia.
    + rewrite candidate_next by done.
      replace ((Z.of_nat k + 1) `mod` 2 ^ 64)%Z with (Z.of_nat (S k))
        by (rewrite Z.mod_small; lia).
      specialize (IH (S k) ltac:(lia)).
      destruct (solveLoop r target bh (candidate bh (S k)) (Z.of_nat (S k)))
        as [bh'|e].
      * destruct IH as (i & Hi & Hmi & Hbefore & ->).
        exists i. split_and!; [lia|lia|done| |done].
        intros j Hj. destruct (decide (j = k)) as [->|]; [done|].
        apply Hbefore. lia.
      * destruct IH as [-> Hnone]. split; [done|].
        intros j Hj. destruct (decide (j = k)) as [->|]; [done|].
        apply Hnone. lia.
Qed.

Lemma solveHeader_run (target : list Z) (bh : BlockHeader) :
  (∀ n, length (uint64_bytes n) = 8) → 40 ≤ length (Marshal bh) →
  ∃ r, solveHeader target bh = Some r ∧
    match r with
    | Ok bh' =>
        ∃ i, i < 256 ∧
          meets_target target (HashBytes (candidate bh i)) ∧
          (∀ j, j < i →
             ¬ meets_target target (HashBytes (candidate bh j))) ∧
          bh' = set_Nonce (nonce_of (candidate bh i)) bh
    | Err e =>
        e = ErrOther "couldn't solve block" ∧
        ∀ j, j < 256 →
          ¬ meets_target target (HashBytes (candidate bh j))
    end.
Proof.
  intros Hu Hm. unfold solveHeader. rewrite decide_False by lia.
  eexists. split; [reflexivity|].
  pose proof (solveLoop_spec 256 0 target bh Hu Hm ltac:(lia)) as Hspec.
  change (Z.of_nat 0) with 0%Z in Hspec. cbn [candidate] in Hspec.
  destruct (solveLoop 256 target bh (Marshal bh) 0) as [bh'|e].
  - destruct Hspec as (i & Hi & Hmi & Hbefore & ->).
    exists i. split_and!; [lia|done| |done]. intros j Hj. apply Hbefore. lia.
  - destruct Hspec as [-> Hnone]. split; [done|].
    intros j Hj. apply Hnone. lia.
Qed.

(** X15: [solveHeader] hashes the header as it was marshalled and then the
    header with the nonces 0, 1, ..., 254 written over its bytes 32 to 39,
    in this order.  It returns the block header with the bytes 32 to 39 of
    the first of these 256 candidates whose hash meets the target, and the
    error "couldn't solve block" exactly when none of them does; the nonce
    255 is written but never tried. *)
Theorem solveHeader_first_candidate (target : list Z) (bh : BlockHeader) :
  (∀ n, length (uint64_bytes n) = 8) → 40 ≤ length (Marshal bh) →
  ∃ r, solveHeader target bh = Some r ∧
    match r with
    | Ok bh' =>
        ∃ i, i < 256 ∧
          meets_target target (HashBytes (candidate bh i)) ∧
          (∀ j, j < i →
             ¬ meets_target target (HashBytes (candidate bh j))) ∧
          bh' = set_Nonce (nonce_of (candidate bh i)) bh
    | Err e =>
        e = ErrOther "couldn't solve block" ∧
        ∀ j, j < 256 →
          ¬ meets_target target (HashBytes (candidate bh j))
    end.
Proof. apply solveHeader_run. Qed.


Lemma findFile_spec (sp : string) (files : list FileInfo) :
  match findFile sp files with
  | Ok file =>
      ∃ before after, files = before ++ file :: after ∧
        FileInfo_SiaPath file = sp ∧
        Forall (λ f, FileInfo_SiaPath f ≠ sp) before
  | Err e =>
      e = ErrOther "file is not tracked by the renter" ∧
      Forall (λ f, FileInfo_SiaPath f ≠ sp) files
  end.
Proof.
  induction files as [|f files IH]; cbn [findFile].
  - by split.
  - case_decide as Hf.
    + exists [], files. by split_and!.
    + destruct (findFile sp files) as [file|e].
      * destruct IH as (before & after & -> & Hsp & Hbefore).
        exists (f :: before), after. split_and!; [done|done|].
        by constructor.
      * destruct IH as [-> Hnone]. split; [done|]. by constructor.
Qed.

Lemma findFile_found (sp : string) (before after : list FileInfo)
    (file : FileInfo) :
  FileInfo_SiaPath file = sp →
  Forall (λ f, FileInfo_SiaPath f ≠ sp) before →
  findFile sp (before ++ file :: after) = Ok file.
Proof.
  intros Hsp Hbefore. induction Hbefore as [|f before Hf _ IH];
    cbn [findFile app].
  - by rewrite decide_True.
  - by rewrite decide_False.
Qed.

Lemma findFile_Ok_iff (sp : string) (files : list FileInfo) :
  (∃ file, findFile sp files = Ok file) ↔
  Exists (λ f, FileInfo_SiaPath f = sp) files.
Proof.
  pose proof (findFile_spec sp files) as Hspec. split.
  - intros [file Hfile]. rewrite Hfile in Hspec.
    destruct Hspec as (before & after & -> & Hsp & _).
    apply Exists_app. right. by constructor.
  - intros Hex. destruct (findFile sp files) as [file|e]; [by eexists|].
    destruct Hspec as [_ Hnone]. exfalso.
    apply Exists_exists in Hex as (f & Hin & Hf).
    rewrite Forall_forall in Hnone. by apply (Hnone f).
Qed.

Lemma getFileInfo_run (tn : TestNode) (tf : TestFile) (w : World) :
  getFileInfo tn tf w =
    match RenterFilesGet (tn_client tn) w with
    | Some (Ok files, w') => Some (findFile (siaPath tf) files, w')
    | Some (Err e, w') => Some (Err e, w')
    | None => None
    end.
Proof.
  unfold getFileInfo, Files, api_bind, api_ret.
  by destruct (RenterFilesGet (tn_client tn) w) as [[[files|e] w']|].
Qed.

(** X17: when the renter lists its files, [FileInfo] returns the first file
    of the list whose path is the path of the test file, and the error
    "file is not tracked by the renter" exactly when no file of the list
    has this path; the world is the one the listing left. *)
Theorem FileInfo_first_match (tn : TestNode) (tf : TestFile) (w w' : World)
    (files : list FileInfo) :
  RenterFilesGet (tn_client tn) w = Some (Ok files, w') →
  ∃ r, getFileInfo tn tf w = Some (r, w') ∧
    match r with
    | Ok file =>
        ∃ before after, files = before ++ file :: after ∧
          FileInfo_SiaPath file = siaPath tf ∧
          Forall (λ f, FileInfo_SiaPath f ≠ siaPath tf) before
    | Err e =>
        e = ErrOther "file is not tracked by the renter" ∧
        Forall (λ f, FileInfo_SiaPath f ≠ siaPath tf) files
    end.
Proof.
  intros Hget. rewrite getFileInfo_run, Hget.
  eexists. split; [reflexivity|]. apply findFile_spec.
Qed.

Lemma findDownload_spec (tf : TestFile) (downloads : list DownloadInfo) :
  match findDownload tf downloads with
  | Some d =>
      ∃ before after, downloads = before ++ d :: after ∧
        (siaPath tf = DownloadInfo_SiaPath d ∧
         path tf = DownloadInfo_Destination d) ∧
        Forall (λ d', ¬ (siaPath tf = DownloadInfo_SiaPath d' ∧
                         path tf = DownloadInfo_Destination d')) before
  | None =>
      Forall (λ d', ¬ (siaPath tf = DownloadInfo_SiaPath d' ∧
                       path tf = DownloadInfo_Destination d')) downloads
  end.
Proof.
  induction downloads as [|d downloads IH]; cbn [findDownload].
  - done.
  - case_decide as Hd.
    + exists [], downloads. split; [done|]. split; [done|constructor].
    + destruct (findDownload tf downloads) as [d'|].
      * destruct IH as (before & after & -> & Hm & Hbefore).
        exists (d :: before), after. split; [done|]. split; [done|].
        by constructor.
      * by constructor.
Qed.

(** X18: when the renter lists its downloads, [DownloadInfo] returns no
    error: it returns the first download of the list that has both the
    path and the destination of the test file, and nil when no download
    has both. *)
Theorem DownloadInfo_first_match (tn : TestNode) (tf : TestFile)
    (w w' : World) (downloads : list DownloadInfo) :
  RenterDownloadsGet (tn_client tn) w = Some (Ok downloads, w') →
  ∃ found, getDownloadInfo tn tf w = Some (Ok found, w') ∧
    match found with
    | Some d =>
        ∃ before after, downloads = before ++ d :: after ∧
          (siaPath tf = DownloadInfo_SiaPath d ∧
           path tf = DownloadInfo_Destination d) ∧
          Forall (λ d', ¬ (siaPath tf = DownloadInfo_SiaPath d' ∧
                           path tf = DownloadInfo_Destination d')) before
    | None =>
        Forall (λ d', ¬ (siaPath tf = DownloadInfo_SiaPath d' ∧
                         path tf = DownloadInfo_Destination d')) downloads
    end.
Proof.
  intros Hget. unfold getDownloadInfo, api_bind, api_ret. rewrite Hget.
  eexists. split; [reflexivity|]. apply findDownload_spec.
Qed.

(** X19: the check of [WaitForDownload] looks at the first download of the
    test file only: when the renter lists its downloads, the check returns
    nil exactly when no download has the path and the destination of the
    test file, or the first that has them has received all its bytes. *)
Theorem downloadDone_first_only (tn : TestNode) (tf : TestFile)
    (w w' : World) (downloads : list DownloadInfo) :
  RenterDownloadsGet (tn_client tn) w = Some (Ok downloads, w') →
  downloadDone tn tf w = Some (None, w') ↔
  match findDownload tf downloads with
  | None => True
  | Some d => DownloadInfo_Filesize d = DownloadInfo_Received d
  end.
Proof.
  intros Hget. unfold downloadDone, getDownloadInfo, api_bind, api_ret.
  rewrite Hget. destruct (findDownload tf downloads) as [d|]; [|done].
  case_decide as Hd; split; try done; intros _; by apply dec_stable.
Qed.

(** X20: [Upload] returns nil exactly when the upload request returned nil
    and the listing of the files that follows it succeeds with a file whose
    path is [siaPath] of the test file; the name the file was uploaded
    under, ["/" + fileName], plays no part in this check. *)
Theorem Upload_nil_iff (tn : TestNode) (tf : TestFile)
    (dataPieces parityPieces : Z) (w w' : World) :
  Upload tn tf dataPieces parityPieces w = Some (None, w') ↔
  ∃ w1 files,
    RenterUploadPost (tn_client tn) (path tf)
      (String.append "/" (fileName tf)) dataPieces parityPieces w
      = Some (None, w1) ∧
    RenterFilesGet (tn_client tn) w1 = Some (Ok files, w') ∧
    Exists (λ f, FileInfo_SiaPath f = siaPath tf) files.
Proof.
  unfold Upload, api_bind. split.
  - destruct (RenterUploadPost _ _ _ _ _ w) as [[[e|] w1]|] eqn:Hpost;
      [done| |done].
    rewrite getFileInfo_run.
    destruct (RenterFilesGet (tn_client tn) w1) as [[[files|e] w2]|]
      eqn:Hfiles; [|done|done].
    destruct (findFile (siaPath tf) files) as [file|e] eqn:Hfind; [|done].
    intros [= ->]. exists w1, files. split_and!; [done|done|].
    apply findFile_Ok_iff. by eexists.
  - intros (w1 & files & -> & Hfiles & Hex).
    rewrite getFileInfo_run, Hfiles.
    apply findFile_Ok_iff in Hex as [file ->]. done.
Qed.

(** X21: [Download] asks for the whole of the first file with the path of
    the test file: offset 0 and the size of that file, in the world the
    listing left. *)
Theorem Download_whole_file (tn : TestNode) (tf : TestFile) (w w1 : World)
    (before after : list FileInfo) (file : FileInfo) :
  RenterFilesGet (tn_client tn) w
    = Some (Ok (before ++ file :: after), w1) →
  FileInfo_SiaPath file = siaPath tf →
  Forall (λ f, FileInfo_SiaPath f ≠ siaPath tf) before →
  Download tn tf w =
    RenterDownloadHTTPResponseGet (tn_client tn) (siaPath tf) 0
      (FileInfo_Filesize file) w1.
Proof.
  intros Hget Hsp Hbefore. unfold Download, api_bind.
  rewrite getFileInfo_run, Hget. by rewrite findFile_found.
Qed.

(** X22: [MineBlock] returns nil only after it has submitted a solved
    header: the node gave a target and a header, one of the 256 candidates
    of that header meets the target, and the header submitted carries the
    nonce of the first such candidate. *)
Theorem MineBlock_submits_solved (tn : TestNode) (w w' : World) :
  (∀ n, length (uint64_bytes n) = 8) →
  MineBlock tn w = Some (None, w') →
  ∃ target header w1 i,
    MinerHeaderGet (tn_client tn) w = Some (Ok (target, header), w1) ∧
    i < 256 ∧
    meets_target target (HashBytes (candidate header i)) ∧
    (∀ j, j < i →
       ¬ meets_target target (HashBytes (candidate header j))) ∧
    MinerHeaderPost (tn_client tn)
      (set_Nonce (nonce_of (candidate header i)) header) w1
      = Some (None, w').
Proof.
  intros Hu. unfold MineBlock, api_bind, api_lift.
  destruct (MinerHeaderGet (tn_client tn) w)
    as [[[[target header]|e] w1]|] eqn:Hget; [|done|done].
  destruct (decide (length (Marshal header) < 40)) as [Hshort|Hlong].
  { unfold solveHeader. by rewrite decide_True. }
  destruct (solveHeader_run target header Hu ltac:(lia))
    as (r & -> & Hr).
  destruct r as [bh'|e]; [|done].
  destruct Hr as (i & Hi & Hmi & Hbefore & ->).
  destruct (MinerHeaderPost _ _ w1) as [[[e|] w2]|] eqn:Hpost; [done| |done].
  intros [= ->]. by exists target, header, w1, i.
Qed.

(** X23: a header that cannot be solved is not submitted: when none of the
    256 candidates meets the target, [MineBlock] returns the error of
    [solveHeader] extended by "failed to solve header", and the world is
    the one the request for the header left. *)
Theorem MineBlock_unsolved (tn : TestNode) (w w1 : World)
    (target : list Z) (header : BlockHeader) :
  (∀ n, length (uint64_bytes n) = 8) → 40 ≤ length (Marshal header) →
  MinerHeaderGet (tn_client tn) w = Some (Ok (target, header), w1) →
  (∀ i, i < 256 → ¬ meets_target target (HashBytes (candidate header i))) →
  MineBlock tn w =
    Some (Some (ExtendErr "failed to solve header"
                  (ErrOther "couldn't solve block")), w1).
Proof.
  intros Hu Hm Hget Hnone. unfold MineBlock, api_bind, api_lift.
  rewrite Hget.
  destruct (solveHeader_run target header Hu Hm)
    as (r & -> & Hr).
  destruct r as [bh'|e].
  - destruct Hr as (i & Hi & Hmi & _). by destruct (Hnone i Hi).
  - by destruct Hr as [-> _].
Qed.

Lemma fundLoop_spec (tn : TestNode) (fuel i : nat) (w w' : World) :
  S MaturityDelay - i < fuel →
  fundLoop fuel i tn w = Some (None, w') ↔
  mined (S MaturityDelay - i) tn w w'.
Proof.
  revert i w. induction fuel as [|fuel IH]; intros i w Hfuel; [lia|].
  cbn [fundLoop]. case_decide as Hi.
  - replace (S MaturityDelay - i) with (S (S MaturityDelay - S i)) by lia.
    cbn [mined]. unfold api_bind.
    destruct (MineBlock tn w) as [[[e|] w1]|] eqn:Hmine.
    + split; [done|]. by intros (w2 & [=] & _).
    + rewrite IH by lia. split.
      * intros Hrest. by exists w1.
      * by intros (w2 & [= ->] & Hrest).
    + split; [done|]. by intros (w2 & [=] & _).
  - replace (S MaturityDelay - i) with 0 by lia. cbn [mined].
    unfold api_ret. split; [by intros [= ->]|by intros ->].
Qed.

(** X24: [NewNode] returns a node exactly when the parameters create a miner
    or bring one, [NewCleanNode] returns this node, and [MineBlock] then
    returns nil [MaturityDelay + 1] times in a row on it; the world
    returned is the one after the last of these blocks. *)
Theorem NewNode_Ok_iff (nodeParams : NodeParams) (tn : TestNode)
    (w w' : World) :
  NewNode nodeParams w = Some (Ok tn, w') ↔
  (CreateMiner nodeParams = true ∨ Miner_is_nil nodeParams = false) ∧
  ∃ w1, NewCleanNode nodeParams w = Some (Ok tn, w1) ∧
    mined (S MaturityDelay) tn w1 w'.
Proof.
  unfold NewNode.
  destruct (negb (CreateMiner nodeParams) && Miner_is_nil nodeParams)
    eqn:Hcheck.
  { split; [done|]. intros [[Hc|Hn] _].
    - by rewrite Hc in Hcheck.
    - by rewrite Hn, andb_false_r in Hcheck. }
  assert (CreateMiner nodeParams = true ∨ Miner_is_nil nodeParams = false)
    as Hminer.
  { destruct (CreateMiner nodeParams), (Miner_is_nil nodeParams); auto. }
  unfold api_bind, api_ret.
  destruct (NewCleanNode nodeParams w) as [[[tn1|e] w1]|] eqn:Hclean.
  - pose proof (fundLoop_spec tn1 (S (S MaturityDelay)) 0 w1) as Hloop.
    rewrite Nat.sub_0_r in Hloop.
    destruct (fundLoop (S (S MaturityDelay)) 0 tn1 w1)
      as [[[e|] w2]|] eqn:Hfund.
    + split; [done|]. intros (_ & w3 & Heq & Hm). simplify_eq.
      by apply Hloop in Hm; [|lia].
    + split.
      * intros Heq. simplify_eq. split; [done|]. exists w1. split; [done|].
        apply Hloop; [lia|done].
      * intros (_ & w3 & Heq & Hm). simplify_eq.
        apply Hloop in Hm; [|lia]. by simplify_eq.
    + split; [done|]. intros (_ & w3 & Heq & Hm). simplify_eq.
      by apply Hloop in Hm; [|lia].
  - split; [done|]. by intros (_ & w3 & Heq & _).
  - split; [done|]. by intros (_ & w3 & Heq & _).
Qed.

(** X25: without a miner no node is started: when the parameters neither
    create a miner nor bring one, [NewNode] returns its error at once, and
    the world is untouched; no server was created. *)
Theorem NewNode_without_miner (nodeParams : NodeParams) (w : World) :
  CreateMiner nodeParams = false → Miner_is_nil nodeParams = true →
  NewNode nodeParams w =
    Some (Err (ErrOther "Can't create funded node without miner"), w).
Proof.
  intros Hc Hm. unfold NewNode. by rewrite Hc, Hm.
Qed.

(** X26: a block that fails stops the funding: when [NewCleanNode] returns a
    node, [k] blocks are mined on it with [k] at most [MaturityDelay], and
    the next [MineBlock] returns an error, then [NewNode] returns this
    error and no node, after exactly these [k] blocks and the failed
    attempt. *)
Theorem NewNode_stops_at_first_failure (nodeParams : NodeParams)
    (tn : TestNode) (k : nat) (e : error) (w w1 w2 w3 : World) :
  (CreateMiner nodeParams = true ∨ Miner_is_nil nodeParams = false) →
  NewCleanNode nodeParams w = Some (Ok tn, w1) →
  k ≤ MaturityDelay →
  mined k tn w1 w2 →
  MineBlock tn w2 = Some (Some e, w3) →
  NewNode nodeParams w = Some (Err e, w3).
Proof.
  intros Hminer Hclean Hk Hmined Hfail.
  assert (∀ fuel i w0, k + i ≤ MaturityDelay → k < fuel →
            mined k tn w0 w2 →
            fundLoop fuel i tn w0 = Some (Some e, w3)) as Hloop.
  { clear Hmined Hclean. induction k as [|k IH]; intros fuel i w0 Hi Hf Hm.
    - cbn [mined] in Hm. subst w0. destruct fuel as [|fuel]; [lia|].
      cbn [fundLoop]. rewrite decide_True by lia.
      unfold api_bind. by rewrite Hfail.
    - cbn [mined] in Hm. destruct Hm as (w4 & Hmine & Hrest).
      destruct fuel as [|fuel]; [lia|].
      cbn [fundLoop]. rewrite decide_True by lia.
      unfold api_bind. rewrite Hmine.
      apply IH; [lia|lia|lia|done]. }
  unfold NewNode.
  replace (negb (CreateMiner nodeParams) && Miner_is_nil nodeParams)
    with false
    by (destruct Hminer as [->| ->]; [done|by rewrite andb_false_r]).
  unfold api_bind. rewrite Hclean.
  by rewrite (Hloop (S (S MaturityDelay)) 0 w1) by (lia || done).
Qed.
Lemma findFile_missing (sp : string) (files : list FileInfo) :
  Forall (λ f, FileInfo_SiaPath f ≠ sp) files →
  findFile sp files = Err (ErrOther "file is not tracked by the renter").
Proof.
  intros Hnone. induction Hnone as [|f files Hf _ IH]; cbn [findFile].
  - done.
  - by rewrite decide_False.
Qed.

(** X27: a file returned by [DownloadToDisk] is the download of the first
    file of the renter that has the path of the test file: the listing
    succeeded, one number was drawn below [math.MaxInt32], the download was
    requested from offset 0 with the size of that file to the destination
    made of the testing directory and the number, and the file returned has
    this destination, the number as name and the path of the test file. *)
Theorem DownloadToDisk_result (tn : TestNode) (tf tf' : TestFile)
    (async : bool) (w w' : World) :
  DownloadToDisk tn tf async w = Some (Ok tf', w') →
  ∃ before file after w1 n w2,
    RenterFilesGet (tn_client tn) w
      = Some (Ok (before ++ file :: after), w1) ∧
    FileInfo_SiaPath file = siaPath tf ∧
    Forall (λ f, FileInfo_SiaPath f ≠ siaPath tf) before ∧
    fastrand_Intn MaxInt32 w1 = Some (n, w2) ∧
    tf' = mkTestFile (filepath_Join SiaTestingDir (Itoa n)) (Itoa n)
            (siaPath tf) ∧
    RenterDownloadGet (tn_client tn) (siaPath tf) (path tf') 0
      (FileInfo_Filesize file) async w2 = Some (None, w').
Proof.
  unfold DownloadToDisk, api_bind, api_ret. rewrite getFileInfo_run.
  destruct (RenterFilesGet (tn_client tn) w) as [[[files|e] w1]|] eqn:Hget;
    [|done|done].
  pose proof (findFile_spec (siaPath tf) files) as Hspec.
  destruct (findFile (siaPath tf) files) as [file|e]; [|done].
  destruct Hspec as (before & after & -> & Hsp & Hbefore).
  destruct (fastrand_Intn MaxInt32 w1) as [[n w2]|] eqn:Hrand; [|done].
  destruct (RenterDownloadGet _ _ _ _ _ _ w2) as [[[e|] w3]|] eqn:Hdown;
    [done| |done].
  intros Heq. simplify_eq.
  exists before, file, after, w1, n, w2. by split_and!.
Qed.

(** X28: a file the renter does not track is not downloaded: when the listing
    succeeds and has no file with the path of the test file, [Download] and
    [DownloadToDisk] return the error "file is not tracked by the renter"
    extended by "failed to retrieve FileInfo", and the world is the one
    the listing left: no number is drawn and no download is requested. *)
Theorem untracked_file_not_downloaded (tn : TestNode) (tf : TestFile)
    (async : bool) (w w1 : World) (files : list FileInfo) :
  RenterFilesGet (tn_client tn) w = Some (Ok files, w1) →
  Forall (λ f, FileInfo_SiaPath f ≠ siaPath tf) files →
  Download tn tf w =
    Some (Err (ExtendErr "failed to retrieve FileInfo"
                 (ErrOther "file is not tracked by the renter")), w1) ∧
  DownloadToDisk tn tf async w =
    Some (Err (ExtendErr "failed to retrieve FileInfo"
                 (ErrOther "file is not tracked by the renter")), w1).
Proof.
  intros Hget Hnone.
  unfold Download, DownloadToDisk, api_bind, api_ret.
  by rewrite getFileInfo_run, Hget, findFile_missing.
Qed.
End SiatestProofs.

(** ** The test node on the sample node *)

#[local] Existing Instance sampleCollaborators.

Lemma solveHeader_first_candidate_witness :
  ∃ r, solveHeader [5%Z] sampleBlock = Some r ∧
    match r with
    | Ok bh' =>
        ∃ i, i < 256 ∧
          meets_target [5%Z] (HashBytes (candidate sampleBlock i)) ∧
          (∀ j, j < i →
             ¬ meets_target [5%Z] (HashBytes (candidate sampleBlock j))) ∧
          bh' = set_Nonce (nonce_of (candidate sampleBlock i)) sampleBlock
    | Err e =>
        e = ErrOther "couldn't solve block" ∧
        ∀ j, j < 256 →
          ¬ meets_target [5%Z] (HashBytes (candidate sampleBlock j))
    end.
Proof.
  apply (solveHeader_first_candidate [5%Z] sampleBlock).
  - intros n. reflexivity.
  - vm_compute. lia.
Defined.


Lemma FileInfo_first_match_witness :
  ∃ r, getFileInfo sampleNode fileF (0, [("/g", 1%Z); ("/f", 2%Z); ("/f", 3%Z)])
         = Some (r, (0, [("/g", 1%Z); ("/f", 2%Z); ("/f", 3%Z)])) ∧
    match r with
    | Ok file =>
        ∃ before after,
          [("/g", 1%Z); ("/f", 2%Z); ("/f", 3%Z)] = before ++ file :: after ∧
          FileInfo_SiaPath file = siaPath fileF ∧
          Forall (λ f, FileInfo_SiaPath f ≠ siaPath fileF) before
    | Err e =>
        e = ErrOther "file is not tracked by the renter" ∧
        Forall (λ f, FileInfo_SiaPath f ≠ siaPath fileF)
          [("/g", 1%Z); ("/f", 2%Z); ("/f", 3%Z)]
    end.
Proof.
  apply (FileInfo_first_match sampleNode fileF
           (0, [("/g", 1%Z); ("/f", 2%Z); ("/f", 3%Z)])).
  reflexivity.
Defined.

Lemma DownloadInfo_first_match_witness :
  ∃ found, getDownloadInfo sampleNode fileF (0, []) = Some (Ok found, (0, [])) ∧
    match found with
    | Some d =>
        ∃ before after, sampleDownloads = before ++ d :: after ∧
          (siaPath fileF = DownloadInfo_SiaPath d ∧
           path fileF = DownloadInfo_Destination d) ∧
          Forall (λ d', ¬ (siaPath fileF = DownloadInfo_SiaPath d' ∧
                           path fileF = DownloadInfo_Destination d')) before
    | None =>
        Forall (λ d', ¬ (siaPath fileF = DownloadInfo_SiaPath d' ∧
                         path fileF = DownloadInfo_Destination d'))
          sampleDownloads
    end.
Proof.
  apply (DownloadInfo_first_match sampleNode fileF (0, [])). reflexivity.
Defined.

Lemma downloadDone_first_only_witness :
  downloadDone sampleNode fileF (0, []) ≠ Some (None, (0, [])) ∧
  downloadDone sampleNode fileG (0, []) = Some (None, (0, [])).
Proof.
  split.
  - intros Hnil.
    apply (downloadDone_first_only sampleNode fileF (0, []) (0, [])
             sampleDownloads eq_refl) in Hnil.
    vm_compute in Hnil. discriminate Hnil.
  - apply (downloadDone_first_only sampleNode fileG (0, []) (0, [])
             sampleDownloads eq_refl).
    by vm_compute.
Defined.

Lemma Upload_nil_iff_witness :
  Upload sampleNode fileF 1 1 (0, []) = Some (None, (0, [("/f", 0%Z)])) ∧
  Upload sampleNode fileG 1 1 (0, []) ≠ Some (None, (0, [("/f", 0%Z)])).
Proof.
  split.
  - apply (Upload_nil_iff sampleNode fileF 1 1 (0, [])).
    exists (0, [("/f", 0%Z)]), [("/f", 0%Z)].
    split; [reflexivity|]. split; [reflexivity|]. by constructor.
  - intros Hnil.
    apply (Upload_nil_iff sampleNode fileG 1 1 (0, [])) in Hnil
      as (w1 & files & Hpost & Hfiles & Hex).
    vm_compute in Hpost, Hfiles. simplify_eq.
    apply Exists_cons in Hex as [Hex|Hex]; [done|].
    by apply Exists_nil in Hex.
Defined.

Lemma Download_whole_file_witness :
  Download sampleNode fileF (0, [("/g", 1%Z); ("/f", 2%Z); ("/f", 3%Z)])
    = Some (Ok [2%Z], (0, [("/g", 1%Z); ("/f", 2%Z); ("/f", 3%Z)])).
Proof.
  apply (Download_whole_file sampleNode fileF
           (0, [("/g", 1%Z); ("/f", 2%Z); ("/f", 3%Z)])
           (0, [("/g", 1%Z); ("/f", 2%Z); ("/f", 3%Z)])
           [("/g", 1%Z)] [("/f", 3%Z)] ("/f", 2%Z)).
  - reflexivity.
  - reflexivity.
  - by repeat constructor.
Defined.

Lemma MineBlock_submits_solved_witness :
  ∃ target header w1 i,
    MinerHeaderGet (tn_client sampleNode) (0, [])
      = Some (Ok (target, header), w1) ∧
    i < 256 ∧
    meets_target target (HashBytes (candidate header i)) ∧
    (∀ j, j < i →
       ¬ meets_target target (HashBytes (candidate header j))) ∧
    MinerHeaderPost (tn_client sampleNode)
      (set_Nonce (nonce_of (candidate header i)) header) w1
      = Some (None, (1, [])).
Proof.
  apply (MineBlock_submits_solved sampleNode (0, []) (1, [])).
  - intros n. reflexivity.
  - by vm_compute.
Defined.

Lemma no_candidate_meets_empty_target (i : nat) :
  ¬ meets_target [] (HashBytes (candidate sampleBlock i)).
Proof.
  unfold meets_target. destruct i as [|j].
  - vm_compute. intros Hle. by apply Hle.
  - assert (nonce_of (candidate sampleBlock (S j)) = le64 (Z.of_nat j))
      as Hn by (apply nonce_of_write_nonce; [reflexivity|vm_compute; lia]).
    change (HashBytes (candidate sampleBlock (S j)))
      with (nonce_of (candidate sampleBlock (S j))).
    rewrite Hn. unfold le64. cbn [fmap list_fmap seq bytes_Compare]. lia.
Qed.

Lemma MineBlock_unsolved_witness :
  MineBlock sampleNode (100, []) =
    Some (Some (ExtendErr "failed to solve header"
                  (ErrOther "couldn't solve block")), (100, [])).
Proof.
  apply (MineBlock_unsolved sampleNode (100, []) (100, []) [] sampleBlock).
  - intros n. reflexivity.
  - vm_compute. lia.
  - reflexivity.
  - intros i _. apply no_candidate_meets_empty_target.
Defined.

Lemma NewNode_Ok_iff_witness :
  NewNode (sampleParams true true) (0, []) = Some (Ok sampleNode, (3, [])) ∧
  mined 3 sampleNode (0, []) (3, []).
Proof.
  assert (NewNode (sampleParams true true) (0, [])
            = Some (Ok sampleNode, (3, []))) as Hrun.
  { reflexivity. }
  split; [exact Hrun|].
  apply (NewNode_Ok_iff (sampleParams true true) sampleNode (0, []) (3, []))
    in Hrun as (_ & w1 & Hclean & Hmined).
  assert (Some (Ok sampleNode, (0, [])) = Some (Ok sampleNode, w1)) as Heq
    by exact Hclean.
  injection Heq as <-. exact Hmined.
Defined.

Lemma NewNode_without_miner_witness :
  NewNode (sampleParams false true) (0, []) =
    Some (Err (ErrOther "Can't create funded node without miner"), (0, [])).
Proof.
  apply (NewNode_without_miner (sampleParams false true) (0, []));
    reflexivity.
Defined.

Lemma NewNode_stops_at_first_failure_witness :
  NewNode (sampleParams true true) (98, []) =
    Some (Err (ExtendErr "failed to solve header"
                 (ErrOther "couldn't solve block")), (100, [])).
Proof.
  apply (NewNode_stops_at_first_failure (sampleParams true true) sampleNode 2
           _ (98, []) (98, []) (100, []) (100, [])).
  - left. reflexivity.
  - reflexivity.
  - vm_compute. lia.
  - exists (99, []). split; [reflexivity|].
    exists (100, []). split; [reflexivity|]. reflexivity.
  - reflexivity.
Defined.

Lemma DownloadToDisk_result_witness :
  ∃ before file after w1 n w2,
    RenterFilesGet (tn_client sampleNode)
        (0, [("/g", 1%Z); ("/f", 2%Z); ("/f", 3%Z)])
      = Some (Ok (before ++ file :: after), w1) ∧
    FileInfo_SiaPath file = siaPath fileF ∧
    Forall (λ f, FileInfo_SiaPath f ≠ siaPath fileF) before ∧
    fastrand_Intn MaxInt32 w1 = Some (n, w2) ∧
    mkTestFile "/tmp/0" "0" "/f"
      = mkTestFile (filepath_Join SiaTestingDir (Itoa n)) (Itoa n)
          (siaPath fileF) ∧
    RenterDownloadGet (tn_client sampleNode) (siaPath fileF)
      (path (mkTestFile "/tmp/0" "0" "/f")) 0
      (FileInfo_Filesize file) false w2
      = Some (None, (1, [("/g", 1%Z); ("/f", 2%Z); ("/f", 3%Z)])).
Proof.
  apply (DownloadToDisk_result sampleNode fileF (mkTestFile "/tmp/0" "0" "/f")
           false (0, [("/g", 1%Z); ("/f", 2%Z); ("/f", 3%Z)])
           (1, [("/g", 1%Z); ("/f", 2%Z); ("/f", 3%Z)])).
  reflexivity.
Defined.

Lemma untracked_file_not_downloaded_witness :
  Download sampleNode fileG (0, [("/g", 1%Z); ("/f", 2%Z)]) =
    Some (Err (ExtendErr "failed to retrieve FileInfo"
                 (ErrOther "file is not tracked by the renter")),
          (0, [("/g", 1%Z); ("/f", 2%Z)])) ∧
  DownloadToDisk sampleNode fileG true (0, [("/g", 1%Z); ("/f", 2%Z)]) =
    Some (Err (ExtendErr "failed to retrieve FileInfo"
                 (ErrOther "file is not tracked by the renter")),
          (0, [("/g", 1%Z); ("/f", 2%Z)])).
Proof.
  apply (untracked_file_not_downloaded sampleNode fileG true
           (0, [("/g", 1%Z); ("/f", 2%Z)]) (0, [("/g", 1%Z); ("/f", 2%Z)])
           [("/g", 1%Z); ("/f", 2%Z)]).
  - reflexivity.
  - by repeat constructor.
Defined.
